(** * Mesa grid space: a shallow embedding of [mesa/space/grid.py]

    The three grid classes ([MultiGrid], [SingleGrid], [Grid]) share one
    object layout; methods are dispatched on the class of [self].  Python
    exceptions leave earlier mutations in place, so every method is a
    function from the program state to an outcome together with the state
    reached. *)

From Stdlib Require Import ZArith Lia.
From stdpp Require Import base numbers list strings functions gmap sets sorting.

#[local] Set Warnings "-clear-no-such-hyp".
Local Open Scope Z_scope.

(** ** Data model *)

(** Agents are Python objects compared by identity; [nat] is the identity. *)
Abbreviation Agent := nat.
(** [Coordinate = Tuple[int, int]] *)
Abbreviation Coordinate := (Z * Z)%type.
(** [GridContent = List[Agent]] *)
Abbreviation GridContent := (list nat).
(** The key [(pos, moore, include_center, radius)] of the neighborhood cache. *)
Abbreviation CacheKey := (Z * Z * bool * bool * Z)%type.

Inductive GridClass := MultiGrid | SingleGrid | Grid.

(** Exceptions: the [Exception(msg)] values raised by the module and the
    built-in ones its list, tuple and arithmetic operations can raise. *)
Inductive exn :=
| Exception (msg : string)
| IndexError
| ValueError
| TypeError
| ZeroDivisionError
| AttributeError.

(** The names the specification uses for the raised exceptions. *)
Definition OutOfBounds : exn := Exception "Point out of bounds, and space non-toroidal.".
Definition CellOccupied : exn := Exception "Cell not empty".
Definition NoEmptyCells : exn := Exception "ERROR: No empty cells".
Definition GridFull : exn := Exception "ERROR: Grid full".
(** [x, y = None] in [remove_agent]: the agent has no recorded position. *)
Definition NotPlaced : exn := TypeError.

Inductive result (A : Type) :=
| Ok (a : A)
| Err (e : exn).
Arguments Ok {A} a.
Arguments Err {A} e.

(** The grid object together with the [pos] attribute of every agent. *)
Record State := mkState {
  cls : GridClass;
  height : Z;
  width : Z;
  torus : bool;
  _grid : list (list GridContent);
  _empties : gset Coordinate;
  _all_cells : gset Coordinate;
  _neighborhood_cache : gmap CacheKey (list Coordinate);
  agent_pos : Agent -> option Coordinate
}.

Definition set_grid (g : list (list GridContent)) (s : State) : State :=
  mkState (cls s) (height s) (width s) (torus s) g (_empties s) (_all_cells s)
          (_neighborhood_cache s) (agent_pos s).

Definition set_empties (e : gset Coordinate) (s : State) : State :=
  mkState (cls s) (height s) (width s) (torus s) (_grid s) e (_all_cells s)
          (_neighborhood_cache s) (agent_pos s).

Definition set_cache (c : gmap CacheKey (list Coordinate)) (s : State) : State :=
  mkState (cls s) (height s) (width s) (torus s) (_grid s) (_empties s) (_all_cells s)
          c (agent_pos s).

Definition set_agent_pos (f : Agent -> option Coordinate) (s : State) : State :=
  mkState (cls s) (height s) (width s) (torus s) (_grid s) (_empties s) (_all_cells s)
          (_neighborhood_cache s) f.

(** ** The state-and-exception monad *)

Definition M (A : Type) : Type := State -> result A * State.

Definition ret {A} (a : A) : M A := fun s => (Ok a, s).
Definition raise {A} (e : exn) : M A := fun s => (Err e, s).
Definition bind {A B} (m : M A) (k : A -> M B) : M B :=
  fun s => match m s with
           | (Ok a, s') => k a s'
           | (Err e, s') => (Err e, s')
           end.
Definition lift {A} (r : result A) : M A := fun s => (r, s).
Definition get : M State := fun s => (Ok s, s).
Definition modify (f : State -> State) : M unit := fun s => (Ok tt, f s).

Notation "'let*' x ':=' m 'in' k" := (bind m (fun x => k))
  (at level 10, x name, m at level 100, k at level 200).
Notation "'run' m 'in' k" := (bind m (fun _ => k))
  (at level 10, m at level 100, k at level 200).

Definition rbind {A B} (r : result A) (k : A -> result B) : result B :=
  match r with
  | Ok a => k a
  | Err e => Err e
  end.

(** ** Python built-ins *)

(** [range(lo, hi)] *)
Definition range (lo hi : Z) : list Z := seqZ lo (hi - lo).

(** [itertools.product(xs, ys)] *)
Definition product (xs ys : list Z) : list Coordinate :=
  xs ≫= fun x => (fun y => (x, y)) <$> ys.

(** The position denoted by a list index: negative indices count from the
    end, anything else outside the list is an [IndexError]. *)
Definition py_index {A} (l : list A) (i : Z) : result nat :=
  let n := Z.of_nat (length l) in
  if bool_decide (0 <= i < n) then Ok (Z.to_nat i)
  else if bool_decide (- n <= i < 0) then Ok (Z.to_nat (n + i))
  else Err IndexError.

(** [l[i]] *)
Definition getitem {A} (l : list A) (i : Z) : result A :=
  rbind (py_index l i) (fun k =>
    match l !! k with
    | Some a => Ok a
    | None => Err IndexError
    end).

(** [l.remove(a)]: drops the first occurrence, [ValueError] if there is none. *)
Fixpoint list_remove (a : Agent) (l : GridContent) : result GridContent :=
  match l with
  | [] => Err ValueError
  | b :: l' =>
      if decide (b = a) then Ok l'
      else rbind (list_remove a l') (fun r => Ok (b :: r))
  end.

(** [a % b] *)
Definition py_mod (a b : Z) : result Z :=
  if decide (b = 0) then Err ZeroDivisionError else Ok (a mod b).

(** Tuple comparison, as used by [sorted] on coordinates. *)
Definition coord_le (p q : Coordinate) : Prop :=
  p.1 < q.1 \/ (p.1 = q.1 /\ p.2 <= q.2).

#[global] Instance coord_le_dec : RelDecision coord_le :=
  fun p q => decide (p.1 < q.1 \/ (p.1 = q.1 /\ p.2 <= q.2)).

(** [sorted(s)] for a set of coordinates. *)
Definition sorted (s : gset Coordinate) : list Coordinate :=
  merge_sort coord_le (elements s).

(** [rng.choice(seq)]: [seq[rng._randbelow(len(seq))]].  The random source
    is external; [rnd] is the number it delivers for this draw. *)
Definition choice {A} (rnd : nat) (seq : list A) : result A :=
  match seq !! (rnd mod length seq)%nat with
  | Some a => Ok a
  | None => Err IndexError
  end.

(** ** [MultiGrid] *)

(** [__init__(width, height, torus)], for an object of class [c]; no agent
    has a position yet. *)
Definition init (c : GridClass) (width height : Z) (torus : bool) : State :=
  let cells := list_to_set (product (range 0 width) (range 0 height)) in
  mkState c height width torus
          (replicate (Z.to_nat width) (replicate (Z.to_nat height) []))
          cells cells ∅ (fun _ => None).

(** [self._grid[x][y]] *)
Definition grid_cell (s : State) (pos : Coordinate) : result GridContent :=
  rbind (getitem (_grid s) pos.1) (fun col => getitem col pos.2).

(** In-place mutation of the list object [self._grid[x][y]] by [f]; the
    new contents are returned. *)
Definition update_cell (f : GridContent -> result GridContent) (pos : Coordinate) : M GridContent :=
  fun s =>
    match py_index (_grid s) pos.1 with
    | Err e => (Err e, s)
    | Ok i =>
        match _grid s !! i with
        | None => (Err IndexError, s)
        | Some col =>
            match py_index col pos.2 with
            | Err e => (Err e, s)
            | Ok j =>
                match col !! j with
                | None => (Err IndexError, s)
                | Some content =>
                    match f content with
                    | Err e => (Err e, s)
                    | Ok content' =>
                        (Ok content', set_grid (<[i := <[j := content']> col]> (_grid s)) s)
                    end
                end
            end
        end
    end.

(** [setattr(agent, "pos", v)] *)
Definition setattr_pos (agent : Agent) (v : option Coordinate) : M unit :=
  modify (fun s => set_agent_pos (<[agent := v]> (agent_pos s)) s).

(** [getattr(agent, "pos")] *)
Definition getattr_pos (agent : Agent) : M (option Coordinate) :=
  fun s => (Ok (agent_pos s agent), s).

(** [__setitem__]: [grid[pos] = agent] *)
Definition setitem (pos : Coordinate) (agent : Agent) : M unit :=
  run update_cell (fun content => Ok (content ++ [agent])) pos in
  ret tt.

Definition out_of_bounds (s : State) (pos : Coordinate) : bool :=
  bool_decide (pos ∉ _all_cells s).

Definition torus_adj (s : State) (pos : Coordinate) : result Coordinate :=
  if negb (out_of_bounds s pos) then Ok pos
  else if negb (torus s) then Err OutOfBounds
  else rbind (py_mod pos.1 (width s)) (fun x =>
       rbind (py_mod pos.2 (height s)) (fun y => Ok (x, y))).

Definition is_cell_empty (s : State) (pos : Coordinate) : bool :=
  bool_decide (pos ∈ _empties s).

(** The [empties] property. *)
Definition empties (s : State) : list Coordinate := sorted (_empties s).

(** The [all_cells] property. *)
Definition all_cells (s : State) : list Coordinate := sorted (_all_cells s).

Definition MultiGrid_place_agent (agent : Agent) (pos : Coordinate) : M Agent :=
  run update_cell (fun content => Ok (content ++ [agent])) pos in
  run modify (fun s => set_empties (_empties s ∖ {[pos]}) s) in
  run setattr_pos agent (Some pos) in
  ret agent.

Definition remove_agent (agent : Agent) : M Agent :=
  let* p := getattr_pos agent in
  match p with
  | None => raise NotPlaced
  | Some (x, y) =>
      let* content := update_cell (list_remove agent) (x, y) in
      run (match content with
           | [] => modify (fun s => set_empties ({[(x, y)]} ∪ _empties s) s)
           | _ :: _ => ret tt
           end) in
      run setattr_pos agent None in
      ret agent
  end.

(** ** [SingleGrid] and [Grid] *)

Definition SingleGrid_place_agent (agent : Agent) (pos : Coordinate) : M Agent :=
  let* s := get in
  if negb (is_cell_empty s pos) then raise CellOccupied
  else MultiGrid_place_agent agent pos.

Definition Grid_place_agent (agent : Agent) (pos : Coordinate) : M Agent :=
  let* s := get in
  run (if negb (is_cell_empty s pos) then
         run update_cell (fun _ => Ok []) pos in
         modify (fun s => set_empties ({[pos]} ∪ _empties s) s)
       else ret tt) in
  SingleGrid_place_agent agent pos.

(** [self.place_agent(agent, pos)]: dispatch on the class of [self]. *)
Definition place_agent (agent : Agent) (pos : Coordinate) : M Agent :=
  let* s := get in
  match cls s with
  | MultiGrid => MultiGrid_place_agent agent pos
  | SingleGrid => SingleGrid_place_agent agent pos
  | Grid => Grid_place_agent agent pos
  end.

Definition move_agent (agent : Agent) (pos : Coordinate) : M Agent :=
  let* s := get in
  let* pos' := lift (torus_adj s pos) in
  run remove_agent agent in
  run place_agent agent pos' in
  ret agent.

(** [rnd] is what [agent.random] delivers for the draw. *)
Definition move_to_empty (agent : Agent) (rnd : nat) : M unit :=
  let* s := get in
  if decide (size (_empties s) = 0%nat) then raise NoEmptyCells
  else
    let* new_pos := lift (choice rnd (empties s)) in
    run move_agent agent new_pos in
    ret tt.

(** An argument of [position_agent]: the string ["random"] or an integer. *)
Inductive xy_arg :=
| Random
| Int (z : Z).

Definition is_random (a : xy_arg) : bool :=
  match a with Random => true | Int _ => false end.

(** [int(a)]; [int("random")] is a [ValueError]. *)
Definition int (a : xy_arg) : result Z :=
  match a with Random => Err ValueError | Int z => Ok z end.

Definition SingleGrid_position_agent (agent : Agent) (x y : xy_arg) (rnd : nat) : M unit :=
  let* s := get in
  let* coords := (if is_random x || is_random y then
                    if decide (size (_empties s) = 0%nat) then raise GridFull
                    else lift (choice rnd (empties s))
                  else
                    let* x' := lift (int x) in
                    let* y' := lift (int y) in
                    ret (x', y')) in
  run setattr_pos agent (Some coords) in
  run place_agent agent coords in
  ret tt.

(** [self.position_agent(...)]: [MultiGrid] has no such attribute. *)
Definition position_agent (agent : Agent) (x y : xy_arg) (rnd : nat) : M unit :=
  let* s := get in
  match cls s with
  | MultiGrid => raise AttributeError
  | SingleGrid | Grid => SingleGrid_position_agent agent x y rnd
  end.

(** ** Neighborhoods *)

(** A [for] loop over a list whose body may raise: the exception ends the
    loop. *)
Fixpoint for_each {A S} (l : list A) (body : A -> S -> result S) (acc : S) : result S :=
  match l with
  | [] => Ok acc
  | a :: l' => rbind (body a acc) (for_each l' body)
  end.

(** [if coord not in coordinates: coordinates.add(coord)] *)
Definition add_coord (coord : Coordinate) (coordinates : gset Coordinate) : gset Coordinate :=
  if decide (coord ∉ coordinates) then {[coord]} ∪ coordinates else coordinates.

(** The body of the inner loop of [get_neighborhood], for one [(dx, dy)]. *)
Definition neighborhood_step (s : State) (pos : Coordinate)
    (moore include_center : bool) (radius : Z) (dy dx : Z)
    (coordinates : gset Coordinate) : result (gset Coordinate) :=
  if bool_decide (dx = 0) && bool_decide (dy = 0) && negb include_center then
    Ok coordinates
  else if negb moore && bool_decide (Z.abs dx + Z.abs dy > radius) then
    Ok coordinates
  else
    let coord := (pos.1 + dx, pos.2 + dy) in
    if out_of_bounds s coord then
      if negb (torus s) then Ok coordinates
      else rbind (torus_adj s coord) (fun coord' => Ok (add_coord coord' coordinates))
    else Ok (add_coord coord coordinates).

(** The two nested loops of [get_neighborhood], run on a cache miss. *)
Definition neighborhood_coordinates (s : State) (pos : Coordinate)
    (moore include_center : bool) (radius : Z) : result (gset Coordinate) :=
  for_each (range (- radius) (radius + 1))
    (fun dy => for_each (range (- radius) (radius + 1))
                 (neighborhood_step s pos moore include_center radius dy))
    ∅.

Definition get_neighborhood (pos : Coordinate) (moore include_center : bool)
    (radius : Z) : M (list Coordinate) :=
  fun s =>
    let cache_key := (pos, moore, include_center, radius) in
    match _neighborhood_cache s !! cache_key with
    | Some neighborhood => (Ok neighborhood, s)
    | None =>
        match neighborhood_coordinates s pos moore include_center radius with
        | Err e => (Err e, s)
        | Ok coordinates =>
            let neighborhood := sorted coordinates in
            (Ok neighborhood,
             set_cache (<[cache_key := neighborhood]> (_neighborhood_cache s)) s)
        end
    end.

(** ** Well-formed states *)

(** Canonical coordinates: inside [[0,width) x [0,height)]. *)
Definition in_bounds (s : State) (p : Coordinate) : Prop :=
  0 <= p.1 < width s /\ 0 <= p.2 < height s.

(** [_grid] is [width] columns of [height] cells. *)
Definition grid_shape (s : State) : Prop :=
  length (_grid s) = Z.to_nat (width s) /\
  Forall (fun col => length col = Z.to_nat (height s)) (_grid s).

(** Invariant 1 of the data model: EmptySet is the set of canonical
    coordinates whose cell holds zero agents. *)
Definition empties_inv (s : State) : Prop :=
  forall p, p ∈ _empties s <-> in_bounds s p /\ grid_cell s p = Ok [].

Record wf (s : State) : Prop := mk_wf {
  wf_width : 0 < width s;
  wf_height : 0 < height s;
  wf_shape : grid_shape s;
  wf_all_cells : forall p, p ∈ _all_cells s <-> in_bounds s p;
  wf_empties : empties_inv s;
  wf_pos : forall a p, agent_pos s a = Some p -> in_bounds s p
}.

(** The cell at a canonical coordinate, read without Python's index
    normalisation. *)
Definition cell_at (s : State) (p : Coordinate) : option GridContent :=
  _grid s !! Z.to_nat p.1 ≫= fun col => col !! Z.to_nat p.2.

(** The state in which the cell at a canonical coordinate holds [c]. *)
Definition put_cell (p : Coordinate) (c : GridContent) (s : State) : State :=
  set_grid (alter (fun col => <[Z.to_nat p.2 := c]> col) (Z.to_nat p.1) (_grid s)) s.

(** An agent is on the grid when some cell holds it. *)
Definition on_grid (s : State) (a : Agent) : Prop :=
  Exists (Exists (fun c => a ∈ c)) (_grid s).

#[global] Instance on_grid_dec (s : State) (a : Agent) : Decision (on_grid s a) :=
  decide (Exists (Exists (fun c => a ∈ c)) (_grid s)).

(** ** The public mutating operations as data *)

Inductive Op :=
| PlaceAgent (agent : Agent) (pos : Coordinate)
| PositionAgent (agent : Agent) (x y : xy_arg) (rnd : nat)
| MoveAgent (agent : Agent) (pos : Coordinate)
| RemoveAgent (agent : Agent)
| MoveToEmpty (agent : Agent) (rnd : nat).

Definition call (o : Op) : M unit :=
  match o with
  | PlaceAgent agent pos => run place_agent agent pos in ret tt
  | PositionAgent agent x y rnd => position_agent agent x y rnd
  | MoveAgent agent pos => run move_agent agent pos in ret tt
  | RemoveAgent agent => run remove_agent agent in ret tt
  | MoveToEmpty agent rnd => move_to_empty agent rnd
  end.

(** The contract of [place_agent] and of [position_agent] with explicit
    coordinates: the position handed in is canonical. *)
Definition canonical (w h : Z) (o : Op) : Prop :=
  match o with
  | PlaceAgent _ pos => 0 <= pos.1 < w /\ 0 <= pos.2 < h
  | PositionAgent _ (Int x) (Int y) _ => 0 <= x < w /\ 0 <= y < h
  | _ => True
  end.

(** [move_to_empty] as the specification words it: the agent is removed
    first, and the destination is drawn from the EmptySet as it stands
    after that removal. *)
Definition move_to_empty_spec (agent : Agent) (rnd : nat) : M unit :=
  run remove_agent agent in
  let* s := get in
  if decide (size (_empties s) = 0%nat) then raise NoEmptyCells
  else
    let* new_pos := lift (choice rnd (empties s)) in
    run place_agent agent new_pos in
    ret tt.

(** The methods of the grid that write to its state, as data: the
    mutating operations, item assignment and the neighborhood query.  The
    remaining methods only read the state, or reach the cache through
    [get_neighborhood]. *)
Inductive Method :=
| Mutate (o : Op)
| SetItem (pos : Coordinate) (agent : Agent)
| GetNeighborhood (pos : Coordinate) (moore include_center : bool) (radius : Z).

Definition invoke (m : Method) : M unit :=
  match m with
  | Mutate o => call o
  | SetItem pos agent => setitem pos agent
  | GetNeighborhood pos moore include_center radius =>
      run get_neighborhood pos moore include_center radius in ret tt
  end.

(** A session with the grid: a caller that catches exceptions goes on
    with the state the failed call left behind. *)
Fixpoint session (ms : list Method) (s : State) : State :=
  match ms with
  | [] => s
  | m :: ms' => session ms' (invoke m s).2
  end.

(** A method called as the Placement Protocol asks: mutations with
    canonical positions, queries, and no direct item assignment. *)
Definition protocol (w h : Z) (m : Method) : Prop :=
  match m with
  | Mutate o => canonical w h o
  | SetItem _ _ => False
  | GetNeighborhood _ _ _ _ => True
  end.

(** The offsets [(dx, dy)] the loops of [get_neighborhood] do not skip,
    in the order they are met. *)
Definition keep_offset (moore include_center : bool) (radius dx dy : Z) : bool :=
  negb (bool_decide (dx = 0) && bool_decide (dy = 0) && negb include_center) &&
  negb (negb moore && bool_decide (Z.abs dx + Z.abs dy > radius)).

Definition offsets (moore include_center : bool) (radius : Z) : list (Z * Z) :=
  range (- radius) (radius + 1) ≫= fun dy =>
  range (- radius) (radius + 1) ≫= fun dx =>
  if keep_offset moore include_center radius dx dy then [(dx, dy)] else [].

#[global] Instance in_bounds_dec (s : State) (p : Coordinate) : Decision (in_bounds s p) :=
  decide (0 <= p.1 < width s /\ 0 <= p.2 < height s).

(** What a kept offset contributes: the wrapped coordinate on a torus,
    the coordinate itself when it is canonical, nothing otherwise. *)
Definition candidate (s : State) (pos : Coordinate) (o : Z * Z) : list Coordinate :=
  let coord := (pos.1 + o.1, pos.2 + o.2) in
  if torus s then [(coord.1 mod width s, coord.2 mod height s)]
  else if bool_decide (in_bounds s coord) then [coord] else [].

Definition neighborhood_list (s : State) (pos : Coordinate)
    (moore include_center : bool) (radius : Z) : list Coordinate :=
  offsets moore include_center radius ≫= candidate s pos.

(** A cache entry that holds what [get_neighborhood] computes on a miss. *)
Definition computed (s : State) (k : CacheKey) (v : list Coordinate) : Prop :=
  exists cs,
    neighborhood_coordinates s (k.1.1.1) (k.1.1.2) (k.1.2) (k.2) = Ok cs /\
    v = sorted cs.

Definition cache_sound (s : State) : Prop :=
  forall k v, _neighborhood_cache s !! k = Some v -> computed s k v.

(** What no method changes: the class and topology of the grid, and the
    entries already in the neighborhood cache; an entry that appears is
    one [get_neighborhood] computed. *)
Definition frame (s s' : State) : Prop :=
  cls s' = cls s /\ height s' = height s /\ width s' = width s /\
  torus s' = torus s /\ _all_cells s' = _all_cells s /\
  _neighborhood_cache s ⊆ _neighborhood_cache s' /\
  (forall k v, _neighborhood_cache s' !! k = Some v ->
               _neighborhood_cache s !! k = Some v \/ computed s k v).

Definition preserves {A} (m : M A) : Prop := forall s, frame s (m s).2.

(** The EmptySet and every cell are, after [place_agent(a, p)] followed by
    [remove_agent(a)], what they were before the two calls. *)
Definition restored_by_place_remove (s : State) (a : Agent) (p : Coordinate) : Prop :=
  let s2 := (remove_agent a (place_agent a p s).2).2 in
  _empties s2 = _empties s /\ _grid s2 = _grid s.

(** [get_neighborhood(p, moore, include_center=False, radius=1)] answers
    with [n] coordinates. *)
Definition neighbor_count (s : State) (p : Coordinate) (moore : bool) (n : nat) : Prop :=
  exists l, (get_neighborhood p moore false 1 s).1 = Ok l /\ length l = n.

(** ** Queries *)

(** [SingleGrid.__getitem__] at a coordinate: the first agent of the
    cell, or [None] when the cell is empty. *)
Definition SingleGrid_getitem (s : State) (pos : Coordinate) : result (option Agent) :=
  rbind (grid_cell s pos) (fun content =>
    Ok (match content with
        | [] => None
        | a :: _ => Some a
        end)).

(** What a method wrapped by [accept_tuple_argument] is called with: one
    [(x, y)] tuple, or a list of them. *)
Inductive cell_arg :=
| OnePos (pos : Coordinate)
| CellList (cell_list : list Coordinate).

(** The decorator: a single position is passed on as a one-item list. *)
Definition accept_tuple_argument {A} (wrapped_function : list Coordinate -> A)
    (arg : cell_arg) : A :=
  match arg with
  | OnePos pos => wrapped_function [pos]
  | CellList cell_list => wrapped_function cell_list
  end.

(** [[self[pos] for pos in cell_list if not self.is_cell_empty(pos)]],
    with [self[pos]] resolved to [item]; the first exception ends it. *)
Fixpoint contents_of {V} (item : Coordinate -> result V) (is_empty : Coordinate -> bool)
    (cell_list : list Coordinate) : result (list V) :=
  match cell_list with
  | [] => Ok []
  | pos :: cell_list' =>
      if negb (is_empty pos) then
        rbind (item pos) (fun v =>
        rbind (contents_of item is_empty cell_list') (fun vs => Ok (v :: vs)))
      else contents_of item is_empty cell_list'
  end.

(** [get_contents] on a [MultiGrid] object. *)
Definition MultiGrid_get_contents (s : State) (arg : cell_arg) : result (list GridContent) :=
  accept_tuple_argument (contents_of (grid_cell s) (is_cell_empty s)) arg.

(** [get_contents] on a [SingleGrid] or [Grid] object: the override hands
    over to the wrapped method of [MultiGrid], where [self[pos]] is
    [SingleGrid.__getitem__]. *)
Definition SingleGrid_get_contents (s : State) (arg : cell_arg) : result (list (option Agent)) :=
  accept_tuple_argument (contents_of (SingleGrid_getitem s) (is_cell_empty s)) arg.

(** [MultiGrid.get_neighbors] *)
Definition MultiGrid_get_neighbors (pos : Coordinate) (moore include_center : bool)
    (radius : Z) : M (list Agent) :=
  let* neighborhood := get_neighborhood pos moore include_center radius in
  let* s := get in
  let* neighbors := lift (MultiGrid_get_contents s (CellList neighborhood)) in
  ret (concat neighbors).

(** [SingleGrid.get_neighbors] *)
Definition SingleGrid_get_neighbors (pos : Coordinate) (moore include_center : bool)
    (radius : Z) : M (list (option Agent)) :=
  let* neighborhood := get_neighborhood pos moore include_center radius in
  let* s := get in
  lift (SingleGrid_get_contents s (CellList neighborhood)).

(** [MultiGrid.get_cell_list_contents] *)
Definition MultiGrid_get_cell_list_contents (s : State) (arg : cell_arg) : result (list Agent) :=
  accept_tuple_argument
    (fun cell_list =>
       rbind (MultiGrid_get_contents s (CellList cell_list)) (fun cs => Ok (concat cs)))
    arg.

(** [exists_empty_cells] *)
Definition exists_empty_cells (s : State) : bool :=
  bool_decide (0 < size (_empties s))%nat.

(** [find_empty]; [rnd] is what the global [random] delivers. *)
Definition find_empty (s : State) (rnd : nat) : result (option Coordinate) :=
  if exists_empty_cells s then rbind (choice rnd (empties s)) (fun p => Ok (Some p))
  else Ok None.




(** ** Further invariants *)

(** Every cell holds at most one agent. *)
Definition single_occupancy (s : State) : Prop :=
  forall p c, in_bounds s p -> grid_cell s p = Ok c -> (length c <= 1)%nat.

(** Every recorded position names a cell that holds the agent. *)
Definition pos_inv (s : State) : Prop :=
  forall a p, agent_pos s a = Some p -> exists c, grid_cell s p = Ok c /\ a ∈ c.

(** Every call of the session returned normally. *)
Fixpoint succeeded (ms : list Method) (s : State) : Prop :=
  match ms with
  | [] => True
  | m :: ms' => (invoke m s).1 = Ok tt /\ succeeded ms' (invoke m s).2
  end.

(** * Proofs *)

(** ** Python built-ins *)

Lemma py_index_canonical {A} (l : list A) (i : Z) :
  0 <= i < Z.of_nat (length l) -> py_index l i = Ok (Z.to_nat i).
Proof.
  intros Hi. unfold py_index. rewrite bool_decide_eq_true_2; done.
Qed.

Lemma getitem_canonical {A} (l : list A) (i : Z) :
  0 <= i < Z.of_nat (length l) ->
  exists a, l !! Z.to_nat i = Some a /\ getitem l i = Ok a.
Proof.
  intros Hi. unfold getitem. rewrite py_index_canonical by done. simpl.
  destruct (lookup_lt_is_Some_2 l (Z.to_nat i)) as [a Ha]; [lia|].
  exists a. by rewrite Ha.
Qed.

Lemma list_remove_app_fresh a c : a ∉ c -> list_remove a (c ++ [a]) = Ok c.
Proof.
  induction c as [|b c IH]; intros Hnot; simpl.
  - by rewrite decide_True.
  - rewrite decide_False by set_solver. rewrite IH by set_solver. done.
Qed.

Lemma list_remove_Ok_nonempty a c c' : list_remove a c = Ok c' -> c ≠ [].
Proof. by destruct c. Qed.

Lemma list_remove_elem a c : a ∈ c -> exists c', list_remove a c = Ok c'.
Proof.
  induction c as [|b c IH]; intros Hin; [by apply elem_of_nil in Hin|].
  simpl. destruct (decide (b = a)); [eauto|].
  destruct IH as [c' Hc']; [set_solver|]. rewrite Hc'. simpl. eauto.
Qed.

Lemma list_remove_subseteq a c c' : list_remove a c = Ok c' -> c' ⊆ c.
Proof.
  revert c'. induction c as [|b c IH]; intros c'; simpl; [done|].
  destruct (decide (b = a)); [intros [= <-]; set_solver|].
  destruct (list_remove a c) as [r|] eqn:Hr; simpl; [|done].
  intros [= <-]. specialize (IH r eq_refl). set_solver.
Qed.

Lemma sorted_elem_of (s : gset Coordinate) p : p ∈ sorted s <-> p ∈ s.
Proof. unfold sorted. by rewrite merge_sort_Permutation, elem_of_elements. Qed.

Lemma sorted_length (s : gset Coordinate) : length (sorted s) = size s.
Proof. unfold sorted. by rewrite merge_sort_Permutation. Qed.

Lemma choice_Ok {A} rnd (l : list A) a : choice rnd l = Ok a -> a ∈ l.
Proof.
  unfold choice. destruct (l !! _) as [b|] eqn:Hb; [|done].
  intros [= <-]. by eapply list_elem_of_lookup_2.
Qed.

Lemma choice_nonempty {A} rnd (l : list A) :
  l ≠ [] -> exists a, choice rnd l = Ok a.
Proof.
  intros Hl. unfold choice.
  destruct (lookup_lt_is_Some_2 l (rnd mod length l)%nat) as [a Ha].
  - apply Nat.mod_upper_bound. by destruct l.
  - exists a. by rewrite Ha.
Qed.

(** ** Cells at canonical coordinates *)

Lemma in_bounds_set_grid g s p : in_bounds (set_grid g s) p <-> in_bounds s p.
Proof. done. Qed.

Lemma grid_cell_cell_at s p :
  grid_shape s -> in_bounds s p ->
  exists c, cell_at s p = Some c /\ grid_cell s p = Ok c.
Proof.
  intros [Hlen Hcols] [Hx Hy]. unfold grid_cell, cell_at.
  destruct (getitem_canonical (_grid s) p.1) as (col & Hcol & ->); [lia|].
  rewrite Hcol. simpl.
  assert (length col = Z.to_nat (height s)) as Hcl.
  { rewrite Forall_forall in Hcols. apply Hcols.
    by eapply list_elem_of_lookup_2. }
  destruct (getitem_canonical col p.2) as (c & Hc & ->); [lia|].
  eauto.
Qed.

Lemma grid_cell_Ok_cell_at s p c :
  grid_shape s -> in_bounds s p -> grid_cell s p = Ok c <-> cell_at s p = Some c.
Proof.
  intros Hs Hp. destruct (grid_cell_cell_at s p Hs Hp) as (c0 & -> & ->).
  split; congruence.
Qed.

Lemma grid_shape_put_cell p c s : grid_shape s -> grid_shape (put_cell p c s).
Proof.
  intros [Hlen Hcols]. split; simpl.
  - by rewrite length_alter.
  - apply Forall_alter; [done|]. intros col _ Hcol. by rewrite length_insert.
Qed.

Lemma cell_at_put_cell_eq p c s :
  grid_shape s -> in_bounds s p -> cell_at (put_cell p c s) p = Some c.
Proof.
  intros Hs Hp. destruct (grid_cell_cell_at s p Hs Hp) as (c0 & Hc0 & _).
  unfold cell_at in *. simpl.
  destruct (_grid s !! Z.to_nat p.1) as [col|] eqn:Hcol; [|done].
  rewrite list_lookup_alter_eq, Hcol. simpl in *.
  apply list_lookup_insert_eq. by eapply lookup_lt_Some.
Qed.

Lemma cell_at_put_cell_ne p q c s :
  in_bounds s p -> in_bounds s q -> p ≠ q ->
  cell_at (put_cell p c s) q = cell_at s q.
Proof.
  intros [Hp1 Hp2] [Hq1 Hq2] Hne. unfold cell_at. simpl.
  destruct (decide (Z.to_nat p.1 = Z.to_nat q.1)) as [He|Hn].
  - rewrite He, list_lookup_alter_eq.
    destruct (_grid s !! Z.to_nat q.1) as [col|]; [|done]. simpl.
    apply list_lookup_insert_ne. intros He2.
    apply Hne. destruct p, q; simpl in *. f_equal; lia.
  - by rewrite list_lookup_alter_ne.
Qed.

Lemma grid_cell_put_cell_eq p c s :
  grid_shape s -> in_bounds s p -> grid_cell (put_cell p c s) p = Ok c.
Proof.
  intros Hs Hp. apply grid_cell_Ok_cell_at;
    [by apply grid_shape_put_cell | done | by apply cell_at_put_cell_eq].
Qed.

Lemma grid_cell_put_cell_ne p q c s :
  grid_shape s -> in_bounds s p -> in_bounds s q -> p ≠ q ->
  grid_cell (put_cell p c s) q = grid_cell s q.
Proof.
  intros Hs Hp Hq Hne.
  destruct (grid_cell_cell_at s q Hs Hq) as (c0 & Hc0 & ->).
  apply grid_cell_Ok_cell_at; [by apply grid_shape_put_cell | done |].
  by rewrite cell_at_put_cell_ne.
Qed.

Lemma put_cell_id p c s : cell_at s p = Some c -> put_cell p c s = s.
Proof.
  unfold cell_at, put_cell, set_grid. intros Hc. destruct s as [k h w t g e ac nc ap].
  simpl in *. f_equal.
  destruct (g !! Z.to_nat p.1) as [col|] eqn:Hcol; [|done]. simpl in Hc.
  apply list_eq. intros i. destruct (decide (i = Z.to_nat p.1)) as [->|Hi].
  - rewrite list_lookup_alter_eq, Hcol. simpl. f_equal. by apply list_insert_id.
  - by rewrite list_lookup_alter_ne.
Qed.

Lemma put_cell_put_cell p c c' s :
  put_cell p c (put_cell p c' s) = put_cell p c s.
Proof.
  unfold put_cell, set_grid. simpl. f_equal.
  rewrite list_alter_alter_eq. apply list_alter_ext; [|done].
  intros col _. simpl. by rewrite list_insert_insert_eq.
Qed.

(** [update_cell] at a canonical coordinate. *)
Lemma update_cell_eq f p c s :
  grid_shape s -> in_bounds s p -> grid_cell s p = Ok c ->
  update_cell f p s =
    match f c with
    | Ok c' => (Ok c', put_cell p c' s)
    | Err e => (Err e, s)
    end.
Proof.
  intros Hs Hp Hc. apply grid_cell_Ok_cell_at in Hc; [|done..].
  destruct Hs as [Hlen Hcols], Hp as [Hx Hy]. unfold update_cell, cell_at in *.
  rewrite py_index_canonical by lia.
  destruct (_grid s !! Z.to_nat p.1) as [col|] eqn:Hcol; [|done]. simpl in Hc.
  assert (length col = Z.to_nat (height s)) as Hcl.
  { rewrite Forall_forall in Hcols. apply Hcols.
    by eapply list_elem_of_lookup_2. }
  rewrite py_index_canonical by lia. rewrite Hc.
  destruct (f c) as [c'|e]; [|done].
  unfold put_cell. do 2 f_equal.
  apply list_eq. intros i. destruct (decide (i = Z.to_nat p.1)) as [->|Hi].
  - rewrite list_lookup_alter_eq, Hcol. simpl.
    apply list_lookup_insert_eq. by eapply lookup_lt_Some.
  - rewrite list_lookup_alter_ne by done. by apply list_lookup_insert_ne.
Qed.

(** ** The two primitive mutations *)

Lemma MultiGrid_place_agent_eq a p c s :
  grid_shape s -> in_bounds s p -> grid_cell s p = Ok c ->
  MultiGrid_place_agent a p s =
    (Ok a, set_agent_pos (<[a := Some p]> (agent_pos s))
             (set_empties (_empties s ∖ {[p]}) (put_cell p (c ++ [a]) s))).
Proof.
  intros Hs Hp Hc. unfold MultiGrid_place_agent, bind.
  by rewrite (update_cell_eq _ p c s).
Qed.

Lemma remove_agent_eq a p c s :
  grid_shape s -> agent_pos s a = Some p -> in_bounds s p ->
  grid_cell s p = Ok c ->
  remove_agent a s =
    match list_remove a c with
    | Err e => (Err e, s)
    | Ok c' =>
        (Ok a, set_agent_pos (<[a := None]> (agent_pos s))
                 (set_empties (match c' with
                               | [] => {[p]} ∪ _empties s
                               | _ :: _ => _empties s
                               end) (put_cell p c' s)))
    end.
Proof.
  intros Hs Ha Hp Hc. unfold remove_agent, bind, getattr_pos. rewrite Ha.
  destruct p as [x y]. rewrite (update_cell_eq _ (x, y) c s) by done.
  destruct (list_remove a c) as [[|b c']|e]; done.
Qed.

Lemma remove_agent_unplaced a s :
  agent_pos s a = None -> remove_agent a s = (Err NotPlaced, s).
Proof. intros Ha. unfold remove_agent, bind, getattr_pos. by rewrite Ha. Qed.

(** One cell, the EmptySet and the position fields change together: the
    shape every successful mutation of the grid has. *)
Lemma wf_after p c' E' f' s :
  wf s -> in_bounds s p ->
  (forall q, q ∈ E' <-> (q = p /\ c' = []) \/ (q ≠ p /\ q ∈ _empties s)) ->
  (forall a q, f' a = Some q -> in_bounds s q) ->
  wf (set_agent_pos f' (set_empties E' (put_cell p c' s))).
Proof.
  intros [Hw Hh Hs Hall He Hpos] Hp HE Hf. split; simpl; try done.
  - by apply grid_shape_put_cell.
  - intros q. rewrite HE. unfold grid_cell at 1. simpl.
    change (rbind _ _) with (grid_cell (put_cell p c' s) q). split.
    + intros [[-> ->]|[Hne Hq]].
      * split; [done|]. by apply grid_cell_put_cell_eq.
      * apply He in Hq as [Hq Hc]. split; [done|].
        by rewrite grid_cell_put_cell_ne.
    + intros [Hq Hc]. destruct (decide (q = p)) as [->|Hne].
      * left. split; [done|].
        rewrite grid_cell_put_cell_eq in Hc by done. congruence.
      * right. split; [done|]. apply He. split; [done|].
        by rewrite grid_cell_put_cell_ne in Hc.
Qed.

Lemma empties_cell_nonempty s p c :
  wf s -> in_bounds s p -> grid_cell s p = Ok c -> c ≠ [] -> p ∉ _empties s.
Proof.
  intros Hwf Hp Hc Hne Hin. apply (wf_empties s Hwf) in Hin as [_ Hin]. congruence.
Qed.

Lemma empties_cell_empty s p :
  wf s -> p ∈ _empties s -> in_bounds s p /\ grid_cell s p = Ok [].
Proof. intros Hwf. apply (wf_empties s Hwf). Qed.

Lemma MultiGrid_place_agent_wf a p s :
  wf s -> in_bounds s p ->
  exists s', MultiGrid_place_agent a p s = (Ok a, s') /\ wf s'.
Proof.
  intros Hwf Hp.
  destruct (grid_cell_cell_at s p (wf_shape s Hwf) Hp) as (c & _ & Hc).
  rewrite (MultiGrid_place_agent_eq a p c s) by (done || apply Hwf).
  eexists; split; [done|]. apply wf_after; [done..| |].
  - intros q. rewrite elem_of_difference, elem_of_singleton.
    split; [intros [? ?]; by right|].
    intros [[_ Hnil]|[? ?]]; [by destruct c|done].
  - intros b q. unfold insert, fn_insert. case_decide; [congruence|].
    apply (wf_pos s Hwf).
Qed.

Lemma remove_agent_wf a r s s' :
  wf s -> remove_agent a s = (r, s') -> wf s'.
Proof.
  intros Hwf. destruct (agent_pos s a) as [p|] eqn:Ha;
    [|rewrite remove_agent_unplaced by done; by intros [= _ <-]].
  assert (in_bounds s p) as Hp by by eapply wf_pos.
  destruct (grid_cell_cell_at s p (wf_shape s Hwf) Hp) as (c & _ & Hc).
  rewrite (remove_agent_eq a p c s) by (done || apply Hwf).
  destruct (list_remove a c) as [c'|e] eqn:Hrm; [|by intros [= _ <-]].
  intros [= _ <-]. apply wf_after; [done..| |].
  - intros q. assert (p ∉ _empties s) as Hnot.
    { eapply empties_cell_nonempty; [done..|]. by eapply list_remove_Ok_nonempty. }
    destruct c' as [|b c'].
    + rewrite elem_of_union, elem_of_singleton.
      destruct (decide (q = p)) as [->|]; naive_solver.
    + destruct (decide (q = p)) as [->|]; naive_solver.
  - intros b q. unfold insert, fn_insert. case_decide; [done|].
    apply (wf_pos s Hwf).
Qed.

(** ** Placement under the three classes *)

Lemma SingleGrid_place_agent_occupied a p s :
  p ∉ _empties s -> SingleGrid_place_agent a p s = (Err CellOccupied, s).
Proof.
  intros Hp. unfold SingleGrid_place_agent, bind, get, is_cell_empty.
  by rewrite bool_decide_eq_false_2.
Qed.

Lemma SingleGrid_place_agent_empty a p s :
  p ∈ _empties s -> SingleGrid_place_agent a p s = MultiGrid_place_agent a p s.
Proof.
  intros Hp. unfold SingleGrid_place_agent, bind, get, is_cell_empty.
  by rewrite bool_decide_eq_true_2.
Qed.

(** The state [Grid.place_agent] reaches once the occupants are evicted. *)
Lemma Grid_place_agent_evict a p c s :
  grid_shape s -> in_bounds s p -> grid_cell s p = Ok c -> p ∉ _empties s ->
  Grid_place_agent a p s =
    MultiGrid_place_agent a p
      (set_empties ({[p]} ∪ _empties s) (put_cell p [] s)).
Proof.
  intros Hs Hp Hc Hnot. unfold Grid_place_agent, bind, get, is_cell_empty.
  rewrite bool_decide_eq_false_2 by done. simpl.
  rewrite (update_cell_eq _ p c s) by done. unfold modify.
  rewrite SingleGrid_place_agent_empty; [done|]. simpl. set_solver.
Qed.

Lemma Grid_place_agent_empty a p s :
  p ∈ _empties s -> Grid_place_agent a p s = MultiGrid_place_agent a p s.
Proof.
  intros Hp. unfold Grid_place_agent, bind, get, is_cell_empty.
  rewrite bool_decide_eq_true_2 by done. simpl.
  by apply SingleGrid_place_agent_empty.
Qed.

Lemma wf_evicted p s :
  wf s -> in_bounds s p ->
  wf (set_empties ({[p]} ∪ _empties s) (put_cell p [] s)).
Proof.
  intros Hwf Hp.
  change (wf (set_agent_pos (agent_pos s)
                (set_empties ({[p]} ∪ _empties s) (put_cell p [] s)))).
  apply wf_after; [done..| |apply Hwf].
  intros q. rewrite elem_of_union, elem_of_singleton.
  destruct (decide (q = p)); naive_solver.
Qed.

Lemma place_agent_wf a p r s s' :
  wf s -> in_bounds s p -> place_agent a p s = (r, s') -> wf s'.
Proof.
  intros Hwf Hp. unfold place_agent, bind, get.
  destruct (cls s).
  - destruct (MultiGrid_place_agent_wf a p s Hwf Hp) as (s1 & -> & Hs1).
    by intros [= _ <-].
  - destruct (decide (p ∈ _empties s)) as [Hin|Hnot].
    + rewrite SingleGrid_place_agent_empty by done.
      destruct (MultiGrid_place_agent_wf a p s Hwf Hp) as (s1 & -> & Hs1).
      by intros [= _ <-].
    + rewrite SingleGrid_place_agent_occupied by done. by intros [= _ <-].
  - destruct (decide (p ∈ _empties s)) as [Hin|Hnot].
    + rewrite Grid_place_agent_empty by done.
      destruct (MultiGrid_place_agent_wf a p s Hwf Hp) as (s1 & -> & Hs1).
      by intros [= _ <-].
    + destruct (grid_cell_cell_at s p (wf_shape s Hwf) Hp) as (c & _ & Hc).
      rewrite (Grid_place_agent_evict a p c s) by (done || apply Hwf).
      destruct (MultiGrid_place_agent_wf a p _ (wf_evicted p s Hwf Hp) Hp)
        as (s1 & -> & Hs1).
      by intros [= _ <-].
Qed.

(** ** The frame of the methods *)

Lemma for_each_ext {A S} (l : list A) (f g : A -> S -> result S) acc :
  (forall a acc', f a acc' = g a acc') -> for_each l f acc = for_each l g acc.
Proof.
  intros Hfg. revert acc. induction l as [|a l IH]; intros acc; simpl; [done|].
  rewrite Hfg. destruct (g a acc); simpl; [apply IH|done].
Qed.

(** The neighborhood computation reads the topology only. *)
Lemma neighborhood_coordinates_topology s s' p moore ic radius :
  height s' = height s -> width s' = width s -> torus s' = torus s ->
  _all_cells s' = _all_cells s ->
  neighborhood_coordinates s' p moore ic radius =
  neighborhood_coordinates s p moore ic radius.
Proof.
  intros Hh Hw Ht Hall. unfold neighborhood_coordinates.
  apply for_each_ext. intros dy acc. apply for_each_ext. intros dx acc'.
  unfold neighborhood_step, torus_adj, out_of_bounds.
  by rewrite Hh, Hw, Ht, Hall.
Qed.

Lemma computed_topology s s' k v :
  height s' = height s -> width s' = width s -> torus s' = torus s ->
  _all_cells s' = _all_cells s -> computed s' k v -> computed s k v.
Proof.
  intros Hh Hw Ht Hall (cs & Hcs & ->). exists cs. split; [|done].
  by rewrite <- (neighborhood_coordinates_topology s s').
Qed.

Lemma frame_same_cache s s' :
  cls s' = cls s -> height s' = height s -> width s' = width s ->
  torus s' = torus s -> _all_cells s' = _all_cells s ->
  _neighborhood_cache s' = _neighborhood_cache s -> frame s s'.
Proof. intros ????? Hc. repeat split; try done; rewrite Hc; auto. Qed.

Lemma frame_refl s : frame s s.
Proof. by apply frame_same_cache. Qed.

Lemma frame_trans s1 s2 s3 : frame s1 s2 -> frame s2 s3 -> frame s1 s3.
Proof.
  intros (?&?&?&?&?&?&Hnew12) (?&?&?&?&?&?&Hnew23).
  repeat split; try congruence; [by etrans|].
  intros k v Hk. destruct (Hnew23 k v Hk) as [Hk2|Hk2]; [by apply Hnew12|].
  right. by apply (computed_topology s1 s2).
Qed.

Lemma preserves_ret {A} (a : A) : preserves (ret a).
Proof. intros s. apply frame_refl. Qed.

Lemma preserves_raise {A} e : preserves (@raise A e).
Proof. intros s. apply frame_refl. Qed.

Lemma preserves_lift {A} (r : result A) : preserves (lift r).
Proof. intros s. apply frame_refl. Qed.

Lemma preserves_get : preserves get.
Proof. intros s. apply frame_refl. Qed.

Lemma preserves_getattr_pos a : preserves (getattr_pos a).
Proof. intros s. apply frame_refl. Qed.

Lemma preserves_bind {A B} (m : M A) (k : A -> M B) :
  preserves m -> (forall a, preserves (k a)) -> preserves (bind m k).
Proof.
  intros Hm Hk s. unfold bind. specialize (Hm s).
  destruct (m s) as [[a|e] s1]; simpl in *; [|done].
  eapply frame_trans; [done|]. apply Hk.
Qed.

Lemma preserves_set_empties f :
  preserves (modify (fun s => set_empties (f s) s)).
Proof. intros s. by apply frame_same_cache. Qed.

Lemma preserves_setattr_pos a v : preserves (setattr_pos a v).
Proof. intros s. by apply frame_same_cache. Qed.

Lemma preserves_update_cell f p : preserves (update_cell f p).
Proof.
  intros s. unfold update_cell.
  repeat (match goal with
          | |- context [match ?x with _ => _ end] => destruct x
          end; simpl; try apply frame_refl).
  by apply frame_same_cache.
Qed.

Create HintDb frame.
#[local] Hint Resolve preserves_ret preserves_raise preserves_lift preserves_get
  preserves_getattr_pos preserves_set_empties preserves_setattr_pos
  preserves_update_cell : frame.

Ltac frame_step :=
  first
    [ apply preserves_bind; [|intros ?]
    | solve [auto with frame]
    | match goal with
      | |- preserves (if ?b then _ else _) => destruct b
      | |- preserves (match ?x with _ => _ end) => destruct x
      end ].

Lemma preserves_MultiGrid_place_agent a p : preserves (MultiGrid_place_agent a p).
Proof. unfold MultiGrid_place_agent. repeat frame_step. Qed.

Lemma preserves_remove_agent a : preserves (remove_agent a).
Proof. unfold remove_agent. repeat frame_step. Qed.

#[local] Hint Resolve preserves_MultiGrid_place_agent preserves_remove_agent : frame.

Lemma preserves_SingleGrid_place_agent a p : preserves (SingleGrid_place_agent a p).
Proof. unfold SingleGrid_place_agent. repeat frame_step. Qed.

#[local] Hint Resolve preserves_SingleGrid_place_agent : frame.

Lemma preserves_Grid_place_agent a p : preserves (Grid_place_agent a p).
Proof. unfold Grid_place_agent. repeat frame_step. Qed.

#[local] Hint Resolve preserves_Grid_place_agent : frame.

Lemma preserves_place_agent a p : preserves (place_agent a p).
Proof. unfold place_agent. repeat frame_step. Qed.

#[local] Hint Resolve preserves_place_agent : frame.

Lemma preserves_move_agent a p : preserves (move_agent a p).
Proof. unfold move_agent. repeat frame_step. Qed.

#[local] Hint Resolve preserves_move_agent : frame.

Lemma preserves_move_to_empty a rnd : preserves (move_to_empty a rnd).
Proof. unfold move_to_empty. repeat frame_step. Qed.

Lemma preserves_position_agent a x y rnd : preserves (position_agent a x y rnd).
Proof.
  unfold position_agent, SingleGrid_position_agent. repeat frame_step.
Qed.

Lemma preserves_setitem p a : preserves (setitem p a).
Proof. unfold setitem. repeat frame_step. Qed.

Lemma preserves_get_neighborhood p moore ic radius :
  preserves (get_neighborhood p moore ic radius).
Proof.
  intros s. unfold get_neighborhood.
  destruct (_neighborhood_cache s !! _) eqn:Hk; simpl; [apply frame_refl|].
  destruct (neighborhood_coordinates _ _ _ _ _) as [cs|e] eqn:Hcs; simpl;
    [|apply frame_refl].
  repeat split; [by apply insert_subseteq|].
  intros k v. simpl. rewrite lookup_insert. case_decide as Hkey; [|by left].
  intros [= <-]. right. subst k. by exists cs.
Qed.

#[local] Hint Resolve preserves_move_to_empty preserves_position_agent
  preserves_setitem preserves_get_neighborhood : frame.

Lemma preserves_call o : preserves (call o).
Proof. destruct o; simpl; repeat frame_step. Qed.

Lemma preserves_invoke m : preserves (invoke m).
Proof.
  destruct m; simpl; [apply preserves_call|auto with frame|repeat frame_step].
Qed.

Lemma frame_session ms s : frame s (session ms s).
Proof.
  revert s. induction ms as [|m ms IH]; intros s; simpl; [apply frame_refl|].
  eapply frame_trans; [apply preserves_invoke|apply IH].
Qed.

(** ** Well-formedness is kept by every operation, successful or not *)

Lemma in_bounds_frame s s' p : frame s s' -> in_bounds s p <-> in_bounds s' p.
Proof. intros (_&Hh&Hw&_). unfold in_bounds. by rewrite Hh, Hw. Qed.

Lemma out_of_bounds_false s p : wf s -> out_of_bounds s p = false <-> in_bounds s p.
Proof.
  intros Hwf. unfold out_of_bounds. rewrite <- (wf_all_cells s Hwf).
  rewrite bool_decide_eq_false. split; [apply dec_stable|by intros ??].
Qed.

Lemma out_of_bounds_true s p : wf s -> out_of_bounds s p = true <-> ~ in_bounds s p.
Proof.
  intros Hwf. rewrite <- (out_of_bounds_false s p Hwf).
  by destruct (out_of_bounds s p).
Qed.

(** On a torus every coordinate wraps to its residues. *)
Lemma torus_adj_torus s p :
  wf s -> torus s = true ->
  torus_adj s p = Ok (p.1 mod width s, p.2 mod height s).
Proof.
  intros Hwf Ht. unfold torus_adj. rewrite Ht. simpl.
  destruct (out_of_bounds s p) eqn:Ho; simpl.
  - unfold py_mod. pose proof (wf_width s Hwf). pose proof (wf_height s Hwf).
    by rewrite !decide_False by lia.
  - apply out_of_bounds_false in Ho as [Hx Hy]; [|done].
    rewrite !Z.mod_small by done. by destruct p.
Qed.

Lemma torus_adj_in_bounds s p p' :
  wf s -> torus_adj s p = Ok p' -> in_bounds s p'.
Proof.
  intros Hwf. destruct (torus s) eqn:Ht.
  - rewrite torus_adj_torus by done. intros [= <-]. split; simpl.
    + apply Z.mod_pos_bound, Hwf.
    + apply Z.mod_pos_bound, Hwf.
  - unfold torus_adj. rewrite Ht.
    destruct (out_of_bounds s p) eqn:Ho; simpl; [done|].
    intros [= <-]. by apply out_of_bounds_false.
Qed.

Lemma torus_adj_out_of_bounds s p :
  torus s = false -> out_of_bounds s p = true -> torus_adj s p = Err OutOfBounds.
Proof. intros Ht Ho. unfold torus_adj. by rewrite Ho, Ht. Qed.

Lemma move_agent_wf a p r s s' :
  wf s -> move_agent a p s = (r, s') -> wf s'.
Proof.
  intros Hwf. unfold move_agent, bind, get, lift.
  destruct (torus_adj s p) as [p'|e] eqn:Hadj; [|by intros [= _ <-]].
  apply torus_adj_in_bounds in Hadj; [|done].
  destruct (remove_agent a s) as [r1 s1] eqn:Hrm.
  pose proof (preserves_remove_agent a s) as Hfr. rewrite Hrm in Hfr.
  apply remove_agent_wf in Hrm; [|done].
  destruct r1 as [v1|e]; [|by intros [= _ <-]].
  destruct (place_agent a p' s1) as [r2 s2] eqn:Hpl.
  apply place_agent_wf in Hpl; [|done|by apply (in_bounds_frame s s1)].
  destruct r2; by intros [= _ <-].
Qed.

Lemma choice_empties_in_bounds rnd s p :
  wf s -> choice rnd (empties s) = Ok p -> p ∈ _empties s /\ in_bounds s p.
Proof.
  intros Hwf Hc. apply choice_Ok in Hc. unfold empties in Hc.
  rewrite sorted_elem_of in Hc. split; [done|].
  by apply (wf_empties s Hwf).
Qed.

Lemma move_to_empty_wf a rnd r s s' :
  wf s -> move_to_empty a rnd s = (r, s') -> wf s'.
Proof.
  intros Hwf. unfold move_to_empty, bind, get, lift.
  destruct (decide _); [by intros [= _ <-]|].
  destruct (choice rnd (empties s)) as [p|e]; [|by intros [= _ <-]].
  destruct (move_agent a p s) as [r1 s1] eqn:Hmv.
  apply move_agent_wf in Hmv; [|done].
  destruct r1; by intros [= _ <-].
Qed.

Lemma wf_setattr_pos a p s :
  wf s -> in_bounds s p -> wf (set_agent_pos (<[a := Some p]> (agent_pos s)) s).
Proof.
  intros [Hw Hh Hs Hall He Hpos] Hp. split; try done.
  intros b q. simpl. unfold insert, fn_insert.
  case_decide; [intros [= <-]; exact Hp|]. apply Hpos.
Qed.

Lemma SingleGrid_position_agent_wf a x y rnd r s s' :
  wf s -> canonical (width s) (height s) (PositionAgent a x y rnd) ->
  SingleGrid_position_agent a x y rnd s = (r, s') -> wf s'.
Proof.
  intros Hwf Hcan.
  unfold SingleGrid_position_agent, bind, get, lift, ret, setattr_pos, modify.
  assert (forall p, in_bounds s p ->
            match place_agent a p
                    (set_agent_pos (<[a:=Some p]> (agent_pos s)) s) with
            | (Ok _, s2) => (Ok tt, s2)
            | (Err e, s2) => (Err e, s2)
            end = (r, s') -> wf s') as Hplace.
  { intros p Hp.
    destruct (place_agent a p _) as [r2 s2] eqn:Hpl.
    apply (place_agent_wf a p r2 _ s2) in Hpl;
      [|by apply wf_setattr_pos|exact Hp].
    destruct r2; by intros [= _ <-]. }
  destruct x as [|x], y as [|y]; simpl;
    try (destruct (decide _); [by intros [= _ <-]|];
         destruct (choice rnd (empties s)) as [p|e] eqn:Hch;
           [|by intros [= _ <-]];
         apply Hplace; by eapply choice_empties_in_bounds).
  apply Hplace. exact Hcan.
Qed.

Lemma position_agent_wf a x y rnd r s s' :
  wf s -> canonical (width s) (height s) (PositionAgent a x y rnd) ->
  position_agent a x y rnd s = (r, s') -> wf s'.
Proof.
  intros Hwf Hcan. unfold position_agent, bind, get.
  destruct (cls s); [by intros [= _ <-]| |];
    by apply SingleGrid_position_agent_wf.
Qed.

Lemma call_wf o r s s' :
  wf s -> canonical (width s) (height s) o -> call o s = (r, s') -> wf s'.
Proof.
  intros Hwf Hcan. destruct o as [a p|a x y rnd|a p|a|a rnd]; simpl.
  - unfold bind. destruct (place_agent a p s) as [r1 s1] eqn:Hpl.
    apply place_agent_wf in Hpl; [|done..]. destruct r1; by intros [= _ <-].
  - by apply position_agent_wf.
  - unfold bind. destruct (move_agent a p s) as [r1 s1] eqn:Hmv.
    apply move_agent_wf in Hmv; [|done]. destruct r1; by intros [= _ <-].
  - unfold bind. destruct (remove_agent a s) as [r1 s1] eqn:Hrm.
    apply remove_agent_wf in Hrm; [|done]. destruct r1; by intros [= _ <-].
  - by apply move_to_empty_wf.
Qed.

Lemma wf_set_cache c s : wf s -> wf (set_cache c s).
Proof. intros [Hw Hh Hs Hall He Hpos]. by split. Qed.

Lemma get_neighborhood_wf p moore ic radius r s s' :
  wf s -> get_neighborhood p moore ic radius s = (r, s') -> wf s'.
Proof.
  intros Hwf. unfold get_neighborhood.
  destruct (_neighborhood_cache s !! _); [by intros [= _ <-]|].
  destruct (neighborhood_coordinates _ _ _ _ _); intros [= _ <-]; [|done].
  by apply wf_set_cache.
Qed.

Lemma invoke_wf m s :
  wf s -> protocol (width s) (height s) m -> wf (invoke m s).2.
Proof.
  intros Hwf Hm. destruct m as [o| |p moore ic radius]; simpl in *; [|done|].
  - destruct (call o s) as [r s1] eqn:Hc. by eapply call_wf.
  - unfold bind.
    destruct (get_neighborhood p moore ic radius s) as [r s1] eqn:Hg.
    apply get_neighborhood_wf in Hg; [|done]. by destruct r.
Qed.

Lemma session_wf ms s :
  wf s -> Forall (protocol (width s) (height s)) ms -> wf (session ms s).
Proof.
  revert s. induction ms as [|m ms IH]; intros s Hwf Hms; simpl; [done|].
  apply Forall_cons in Hms as [Hm Hms].
  pose proof (preserves_invoke m s) as (_&Hh&Hw&_).
  apply IH; [by apply invoke_wf|by rewrite Hh, Hw].
Qed.

(** ** The constructor *)

Lemma elem_of_product x y xs ys : (x, y) ∈ product xs ys <-> x ∈ xs /\ y ∈ ys.
Proof.
  unfold product. rewrite list_elem_of_bind. split.
  - intros (x' & Hin & Hx'). apply list_elem_of_fmap in Hin as (y' & [= -> ->] & Hy').
    done.
  - intros [Hx Hy]. exists x. split; [|done]. apply list_elem_of_fmap. eauto.
Qed.

Lemma elem_of_range i lo hi : i ∈ range lo hi <-> lo <= i < hi.
Proof. unfold range. rewrite elem_of_seqZ. lia. Qed.

Lemma init_all_cells c w h t p :
  p ∈ _all_cells (init c w h t) <-> in_bounds (init c w h t) p.
Proof.
  destruct p as [x y]. simpl.
  by rewrite elem_of_list_to_set, elem_of_product, !elem_of_range.
Qed.

Lemma wf_init c w h t : 0 < w -> 0 < h -> wf (init c w h t).
Proof.
  intros Hw Hh.
  assert (grid_shape (init c w h t)) as Hshape.
  { split; simpl; [by rewrite length_replicate|].
    apply Forall_replicate. by rewrite length_replicate. }
  split; try done.
  - apply init_all_cells.
  - intros p. change (_empties (init c w h t)) with (_all_cells (init c w h t)).
    rewrite init_all_cells. split; [|by intros [? _]].
    intros Hp. split; [done|].
    destruct (grid_cell_cell_at _ p Hshape Hp) as (c0 & Hc0 & ->).
    unfold cell_at in Hc0. simpl in Hc0.
    destruct (replicate _ _ !! Z.to_nat p.1) as [col|] eqn:Hcol; [|done].
    apply lookup_replicate in Hcol as [-> _]. simpl in Hc0.
    apply lookup_replicate in Hc0 as [-> _]. done.
Qed.

(** ** The EmptySet invariant *)

(** C3: in every state a session of protocol calls reaches from a freshly
    constructed grid of any of the three classes, each successful
    [place_agent], [position_agent], [move_agent], [remove_agent] or
    [move_to_empty] leaves a state in which a coordinate is in the EmptySet
    iff it is canonical and its cell holds zero agents. *)
Theorem emptyset_invariant c w h t ms o s' :
  0 < w -> 0 < h -> Forall (protocol w h) ms -> canonical w h o ->
  call o (session ms (init c w h t)) = (Ok tt, s') ->
  empties_inv s'.
Proof.
  intros Hw Hh Hms Ho Hcall.
  pose proof (frame_session ms (init c w h t)) as (_&Hhs&Hws&_).
  simpl in Hhs, Hws. apply wf_empties.
  eapply call_wf; [|by rewrite Hhs, Hws|exact Hcall].
  apply session_wf; [by apply wf_init|done].
Qed.

Lemma emptyset_invariant_witness :
  empties_inv
    (call (MoveToEmpty 0%nat 2%nat)
       (session [Mutate (PositionAgent 0%nat (Int 0) (Int 1) 0%nat);
                 Mutate (PlaceAgent 1%nat (1, 1));
                 Mutate (PlaceAgent 2%nat (1, 1));
                 Mutate (MoveAgent 2%nat (5, -1))]
          (init Grid 2 2 true))).2.
Proof.
  apply (emptyset_invariant Grid 2 2 true
           [Mutate (PositionAgent 0%nat (Int 0) (Int 1) 0%nat);
            Mutate (PlaceAgent 1%nat (1, 1));
            Mutate (PlaceAgent 2%nat (1, 1));
            Mutate (MoveAgent 2%nat (5, -1))]
           (MoveToEmpty 0%nat 2%nat)).
  - lia.
  - lia.
  - repeat constructor; simpl; lia.
  - exact I.
  - vm_compute. reflexivity.
Defined.

(** ** Failures that leave the state alone *)

(** C4: on a non-torus grid [move_agent] to an out-of-bounds position
    raises the out-of-bounds exception and the state it leaves is the
    state it was called in: the agent's cell and position field, every
    other cell and the EmptySet are untouched. *)
Theorem move_agent_out_of_bounds s a p :
  torus s = false -> out_of_bounds s p = true ->
  move_agent a p s = (Err OutOfBounds, s).
Proof.
  intros Ht Ho. unfold move_agent, bind, get, lift.
  by rewrite torus_adj_out_of_bounds.
Qed.

Lemma move_agent_out_of_bounds_witness :
  let s := (place_agent 0%nat (1, 1) (init SingleGrid 3 3 false)).2 in
  move_agent 0%nat (3, 1) s = (Err OutOfBounds, s).
Proof.
  intros s. apply (move_agent_out_of_bounds s 0%nat (3, 1)); reflexivity.
Defined.

(** C5: under the exclusive class, [place_agent] on a position whose
    cell is not empty raises the cell-occupied exception and leaves the
    state, hence the target cell and the EmptySet, unchanged. *)
Theorem SingleGrid_place_agent_nonempty s a p c :
  wf s -> cls s = SingleGrid -> grid_cell s p = Ok c -> c ≠ [] ->
  place_agent a p s = (Err CellOccupied, s).
Proof.
  intros Hwf Hcls Hc Hne. unfold place_agent, bind, get. rewrite Hcls.
  apply SingleGrid_place_agent_occupied. intros Hin.
  apply (wf_empties s Hwf) in Hin as [_ Hin]. congruence.
Qed.

Lemma wf_session_init c w h t ms :
  0 < w -> 0 < h -> Forall (protocol w h) ms -> wf (session ms (init c w h t)).
Proof. intros Hw Hh Hms. apply session_wf; [by apply wf_init|done]. Qed.

Lemma SingleGrid_place_agent_nonempty_witness :
  let s := session [Mutate (PlaceAgent 0%nat (1, 1))] (init SingleGrid 3 3 false) in
  place_agent 1%nat (1, 1) s = (Err CellOccupied, s).
Proof.
  intros s. apply (SingleGrid_place_agent_nonempty s 1%nat (1, 1) [0%nat]).
  - apply wf_session_init; [lia|lia|]. repeat constructor; simpl; lia.
  - reflexivity.
  - reflexivity.
  - discriminate.
Defined.

(** ** Item assignment *)

(** C10: [grid[pos] = agent] at a canonical position appends the agent to
    that cell and changes nothing else: the state it leaves is the state it
    was called in with that one cell extended, so the class, the topology,
    the set of all cells, the neighborhood cache, the EmptySet, every
    position field and every other cell stay as they were; so when the cell
    was empty, [is_cell_empty(pos)] still answers true although the cell now
    holds the agent. *)
Theorem setitem_only_appends s p a c :
  wf s -> in_bounds s p -> grid_cell s p = Ok c ->
  exists s',
    setitem p a s = (Ok tt, s') /\
    s' = put_cell p (c ++ [a]) s /\
    grid_cell s' p = Ok (c ++ [a]) /\
    (forall q, in_bounds s q -> q ≠ p -> grid_cell s' q = grid_cell s q) /\
    cls s' = cls s /\
    height s' = height s /\
    width s' = width s /\
    torus s' = torus s /\
    _empties s' = _empties s /\
    _all_cells s' = _all_cells s /\
    _neighborhood_cache s' = _neighborhood_cache s /\
    agent_pos s' = agent_pos s /\
    (c = [] -> is_cell_empty s' p = true).
Proof.
  intros Hwf Hp Hc. exists (put_cell p (c ++ [a]) s).
  pose proof (wf_shape s Hwf) as Hs.
  split_and!; try done.
  - unfold setitem, bind. by rewrite (update_cell_eq _ p c s).
  - by apply grid_cell_put_cell_eq.
  - intros q Hq Hne. by apply grid_cell_put_cell_ne.
  - intros ->. unfold is_cell_empty. simpl. apply bool_decide_eq_true_2.
    by apply (wf_empties s Hwf).
Qed.

Lemma setitem_only_appends_witness :
  exists s',
    setitem (0, 1) 7%nat (init MultiGrid 2 2 false) = (Ok tt, s') /\
    s' = put_cell (0, 1) ([] ++ [7%nat]) (init MultiGrid 2 2 false) /\
    grid_cell s' (0, 1) = Ok ([] ++ [7%nat]) /\
    (forall q, in_bounds (init MultiGrid 2 2 false) q -> q ≠ (0, 1) ->
               grid_cell s' q = grid_cell (init MultiGrid 2 2 false) q) /\
    cls s' = cls (init MultiGrid 2 2 false) /\
    height s' = height (init MultiGrid 2 2 false) /\
    width s' = width (init MultiGrid 2 2 false) /\
    torus s' = torus (init MultiGrid 2 2 false) /\
    _empties s' = _empties (init MultiGrid 2 2 false) /\
    _all_cells s' = _all_cells (init MultiGrid 2 2 false) /\
    _neighborhood_cache s' = _neighborhood_cache (init MultiGrid 2 2 false) /\
    agent_pos s' = agent_pos (init MultiGrid 2 2 false) /\
    (@nil nat = [] -> is_cell_empty s' (0, 1) = true).
Proof.
  apply (setitem_only_appends (init MultiGrid 2 2 false) (0, 1) 7%nat []).
  - apply wf_init; lia.
  - split; simpl; lia.
  - reflexivity.
Defined.

(** ** Placing and removing again *)

Lemma not_on_grid_cell s a p c :
  ~ on_grid s a -> cell_at s p = Some c -> a ∉ c.
Proof.
  intros Hnot Hc Ha. apply Hnot. unfold on_grid, cell_at in *.
  destruct (_grid s !! Z.to_nat p.1) as [col|] eqn:Hcol; [|done]. simpl in Hc.
  apply Exists_exists. exists col. split; [by eapply list_elem_of_lookup_2|].
  apply Exists_exists. exists c. split; [by eapply list_elem_of_lookup_2|done].
Qed.

Lemma list_remove_not_elem a c : a ∉ c -> list_remove a c = Err ValueError.
Proof.
  induction c as [|b c IH]; intros Hnot; simpl; [done|].
  rewrite decide_False by set_solver. by rewrite IH by set_solver.
Qed.

(** After [MultiGrid.place_agent] of an agent the cell did not hold,
    [remove_agent] succeeds and undoes it. *)
Lemma remove_after_MultiGrid_place a p c s :
  wf s -> in_bounds s p -> grid_cell s p = Ok c -> a ∉ c ->
  exists s2,
    remove_agent a (MultiGrid_place_agent a p s).2 = (Ok a, s2) /\
    _empties s2 = _empties s /\ _grid s2 = _grid s.
Proof.
  intros Hwf Hp Hc Ha. pose proof (wf_shape s Hwf) as Hs.
  rewrite (MultiGrid_place_agent_eq a p c s) by done. simpl.
  rewrite (remove_agent_eq a p (c ++ [a])); simpl.
  - rewrite list_remove_app_fresh by done. eexists. split; [done|]. simpl.
    apply grid_cell_Ok_cell_at in Hc; [|done..]. split.
    + destruct c as [|b c].
      * assert (p ∈ _empties s) as Hin.
        { apply (wf_empties s Hwf). split; [done|].
          by apply grid_cell_Ok_cell_at. }
        apply set_eq. intros q.
        rewrite elem_of_union, elem_of_difference, elem_of_singleton.
        destruct (decide (q = p)) as [->|]; naive_solver.
      * assert (p ∉ _empties s) as Hnot.
        { apply (empties_cell_nonempty s p (b :: c));
            [done|done|by apply grid_cell_Ok_cell_at|done]. }
        set_solver.
    + change (_grid (put_cell p c (put_cell p (c ++ [a]) s)) = _grid s).
      by rewrite put_cell_put_cell, put_cell_id.
  - by apply grid_shape_put_cell.
  - apply fn_lookup_insert.
  - done.
  - by apply grid_cell_put_cell_eq.
Qed.

(** [remove_agent] of an agent no cell holds fails and changes nothing. *)
Lemma remove_agent_not_on_grid a s :
  wf s -> ~ on_grid s a -> exists e, remove_agent a s = (Err e, s).
Proof.
  intros Hwf Hnot. destruct (agent_pos s a) as [p|] eqn:Ha.
  - assert (in_bounds s p) as Hp by by eapply wf_pos.
    destruct (grid_cell_cell_at s p (wf_shape s Hwf) Hp) as (c & Hc & Hg).
    rewrite (remove_agent_eq a p c s) by (done || apply Hwf).
    rewrite list_remove_not_elem by by eapply not_on_grid_cell. eauto.
  - rewrite remove_agent_unplaced by done. eauto.
Qed.

(** C8 (amended): for an agent [a] that no cell holds and a canonical
    position [p], [place_agent(a, p)] followed by [remove_agent(a)] leaves
    the EmptySet and every cell exactly as they were, under the
    multi-occupancy class (also when [p] was occupied) and under the
    exclusive class; under the evicting class it does so when [p] was
    empty.  Under the multi-occupancy class, and under any class when [p] was
    empty, both calls succeed. *)
Theorem place_then_remove_restores s a p :
  wf s -> ~ on_grid s a -> in_bounds s p ->
  (cls s = Grid -> p ∈ _empties s) ->
  restored_by_place_remove s a p /\
  (cls s = MultiGrid \/ p ∈ _empties s ->
   (place_agent a p s).1 = Ok a /\
   (remove_agent a (place_agent a p s).2).1 = Ok a).
Proof.
  intros Hwf Hnot Hp Hgrid.
  destruct (grid_cell_cell_at s p (wf_shape s Hwf) Hp) as (c & Hcell & Hc).
  assert (a ∉ c) as Ha by by eapply not_on_grid_cell.
  destruct (remove_after_MultiGrid_place a p c s Hwf Hp Hc Ha)
    as (s2 & Hrm & He & Hg).
  assert (MultiGrid_place_agent a p s =
            (Ok a, (MultiGrid_place_agent a p s).2)) as Hmulti.
  { by rewrite (MultiGrid_place_agent_eq a p c s) by (done || apply Hwf). }
  assert (place_agent a p s = MultiGrid_place_agent a p s ->
          restored_by_place_remove s a p /\
          (place_agent a p s).1 = Ok a /\
          (remove_agent a (place_agent a p s).2).1 = Ok a) as Hvia.
  { intros Heq. unfold restored_by_place_remove. rewrite Heq, Hrm.
    by rewrite Hmulti. }
  unfold place_agent, bind, get in *. destruct (cls s) eqn:Hcls.
  - destruct Hvia as (? & ? & ?); done.
  - destruct (decide (p ∈ _empties s)) as [Hin|Hout].
    + rewrite SingleGrid_place_agent_empty in * by done.
      destruct Hvia as (? & ? & ?); done.
    + split; [|by intros [|]].
      unfold restored_by_place_remove, place_agent, bind, get. rewrite Hcls.
      rewrite SingleGrid_place_agent_occupied by done. simpl.
      destruct (remove_agent_not_on_grid a s Hwf Hnot) as [e ->]. done.
  - rewrite Grid_place_agent_empty in * by auto.
    destruct Hvia as (? & ? & ?); done.
Qed.

Lemma place_then_remove_restores_witness :
  let s := session [Mutate (PlaceAgent 0%nat (1, 0))] (init MultiGrid 2 2 true) in
  restored_by_place_remove s 1%nat (1, 0) /\
  (cls s = MultiGrid \/ (1, 0) ∈ _empties s ->
   (place_agent 1%nat (1, 0) s).1 = Ok 1%nat /\
   (remove_agent 1%nat (place_agent 1%nat (1, 0) s).2).1 = Ok 1%nat).
Proof.
  intros s. apply (place_then_remove_restores s 1%nat (1, 0)).
  - apply wf_session_init; [lia|lia|]. repeat constructor; simpl; lia.
  - apply (proj1 (bool_decide_eq_false (on_grid s 1%nat))). by vm_compute.
  - by vm_compute.
  - discriminate.
Defined.

(** C8 as stated fails under the evicting class: placing agent 1 on the
    cell of agent 0 and removing agent 1 again leaves that cell empty. *)
Lemma place_then_remove_not_restored_on_eviction :
  let s := session [Mutate (PlaceAgent 0%nat (0, 0))] (init Grid 2 2 false) in
  ~ on_grid s 1%nat /\ in_bounds s (0, 0) /\
  grid_cell s (0, 0) = Ok [0%nat] /\
  grid_cell (remove_agent 1%nat (place_agent 1%nat (0, 0) s).2).2 (0, 0) = Ok [] /\
  ~ restored_by_place_remove s 1%nat (0, 0).
Proof.
  intros s. split; [|split; [|split; [|split]]].
  - apply (proj1 (bool_decide_eq_false (on_grid s 1%nat))). by vm_compute.
  - by vm_compute.
  - reflexivity.
  - reflexivity.
  - intros [_ Hg]. vm_compute in Hg. discriminate.
Qed.

(** ** Eviction *)

(** What [Grid.place_agent] does on an occupied canonical cell: the cell
    ends up holding the new agent alone and the call succeeds, while the
    position field of every other agent, the evicted ones included, is what
    it was. *)
Lemma Grid_place_agent_evicts s b p c :
  wf s -> cls s = Grid -> in_bounds s p -> grid_cell s p = Ok c -> c ≠ [] ->
  exists s',
    place_agent b p s = (Ok b, s') /\
    grid_cell s' p = Ok [b] /\
    (forall q, in_bounds s q -> q ≠ p -> grid_cell s' q = grid_cell s q) /\
    agent_pos s' b = Some p /\
    (forall a, a ≠ b -> agent_pos s' a = agent_pos s a).
Proof.
  intros Hwf Hcls Hp Hc Hne. pose proof (wf_shape s Hwf) as Hs.
  unfold place_agent, bind, get. rewrite Hcls.
  rewrite (Grid_place_agent_evict b p c s)
    by (done || by eapply empties_cell_nonempty).
  rewrite (MultiGrid_place_agent_eq b p []).
  - eexists. split; [done|]. simpl.
    change (set_empties _ (put_cell p [] s)) with
      (set_empties ({[p]} ∪ _empties s) (put_cell p [] s)).
    split; [|split; [|split]].
    + change (grid_cell (put_cell p [b] (put_cell p [] s)) p = Ok [b]).
      rewrite put_cell_put_cell. by apply grid_cell_put_cell_eq.
    + intros q Hq Hqp.
      change (grid_cell (put_cell p [b] (put_cell p [] s)) q = grid_cell s q).
      rewrite put_cell_put_cell. by apply grid_cell_put_cell_ne.
    + apply fn_lookup_insert.
    + intros a Hab. by apply fn_lookup_insert_ne.
  - by apply grid_shape_put_cell.
  - done.
  - by apply grid_cell_put_cell_eq.
Qed.

(** C1, evaluated on a 2x2 grid of the evicting class where agent 0 sits
    at (0,0) and agent 1 is placed there: the call succeeds, agent 1 holds
    the cell alone and agent 0 is in no cell, but the position field of
    agent 0 still reads (0,0). *)
Theorem Grid_place_agent_stale_pos :
  let s := session [Mutate (PlaceAgent 0%nat (0, 0))] (init Grid 2 2 false) in
  let s' := (place_agent 1%nat (0, 0) s).2 in
  grid_cell s (0, 0) = Ok [0%nat] /\
  (place_agent 1%nat (0, 0) s).1 = Ok 1%nat /\
  grid_cell s' (0, 0) = Ok [1%nat] /\
  ~ on_grid s' 0%nat /\
  agent_pos s' 0%nat = Some (0, 0).
Proof.
  intros s s'. split; [|split; [|split; [|split]]]; try reflexivity.
  apply (proj1 (bool_decide_eq_false (on_grid s' 0%nat))). by vm_compute.
Qed.

(** ** Moving to an empty cell *)

Lemma place_agent_empty_succeeds s a p :
  wf s -> p ∈ _empties s ->
  exists s', place_agent a p s = (Ok a, s') /\
             grid_cell s' p = Ok [a] /\ agent_pos s' a = Some p.
Proof.
  intros Hwf Hin. destruct (empties_cell_empty s p Hwf Hin) as [Hp Hc].
  assert (place_agent a p s = MultiGrid_place_agent a p s) as ->.
  { unfold place_agent, bind, get. destruct (cls s); [done|..].
    - by apply SingleGrid_place_agent_empty.
    - by apply Grid_place_agent_empty. }
  rewrite (MultiGrid_place_agent_eq a p []) by (done || apply Hwf).
  eexists. split; [done|]. simpl. split; [|apply fn_lookup_insert].
  apply (grid_cell_put_cell_eq p [a] s); [apply Hwf|done].
Qed.

Lemma torus_adj_canonical s p : wf s -> in_bounds s p -> torus_adj s p = Ok p.
Proof.
  intros Hwf Hp. unfold torus_adj.
  by rewrite (proj2 (out_of_bounds_false s p Hwf) Hp).
Qed.

(** C2 (amended): [move_to_empty(agent)] draws the destination from the
    EmptySet as it stands when the call starts, before the agent is
    removed, so the destination is never the agent's own cell; it then
    removes the agent from its cell and places it at the drawn coordinate.
    It raises the no-empty-cells exception, with the state untouched, when
    the EmptySet is empty at that point, and succeeds otherwise. *)
Theorem move_to_empty_draws_first s a rnd p c :
  wf s -> agent_pos s a = Some p -> grid_cell s p = Ok c -> a ∈ c ->
  (_empties s = ∅ -> move_to_empty a rnd s = (Err NoEmptyCells, s)) /\
  (_empties s ≠ ∅ ->
   exists new_pos s1 s2,
     choice rnd (empties s) = Ok new_pos /\
     new_pos ∈ _empties s /\ new_pos ≠ p /\
     remove_agent a s = (Ok a, s1) /\
     place_agent a new_pos s1 = (Ok a, s2) /\
     move_to_empty a rnd s = (Ok tt, s2) /\
     agent_pos s2 a = Some new_pos).
Proof.
  intros Hwf Ha Hc Hin. split.
  - intros He. unfold move_to_empty, bind, get.
    rewrite decide_True; [done|]. rewrite He. apply size_empty.
  - intros Hne.
    assert (size (_empties s) ≠ 0%nat) as Hsize.
    { intros Hz. by apply size_empty_inv, leibniz_equiv in Hz. }
    destruct (choice_nonempty rnd (empties s)) as [new_pos Hch].
    { intros Hnil. apply Hsize. unfold empties in Hnil.
      by rewrite <- sorted_length, Hnil. }
    destruct (choice_empties_in_bounds rnd s new_pos Hwf Hch) as [Hnew Hnb].
    assert (in_bounds s p) as Hp by by eapply wf_pos.
    assert (p ∉ _empties s) as Hpe.
    { apply (empties_cell_nonempty s p c); [done..|]. intros ->.
      by apply elem_of_nil in Hin. }
    destruct (list_remove_elem a c Hin) as [c' Hc'].
    pose proof (remove_agent_eq a p c s (wf_shape s Hwf) Ha Hp Hc) as Hrm.
    rewrite Hc' in Hrm.
    destruct (remove_agent a s) as [r1 s1] eqn:Hrm1.
    pose proof (remove_agent_wf a r1 s s1 Hwf Hrm1) as Hwf1.
    injection Hrm as -> Hs1.
    assert (new_pos ∈ _empties s1) as Hnew1.
    { rewrite Hs1. simpl. destruct c'; set_solver. }
    destruct (place_agent_empty_succeeds s1 a new_pos Hwf1 Hnew1)
      as (s2 & Hpl & _ & Hpos2).
    exists new_pos, s1, s2. split; [done|]. split; [done|].
    split; [by intros ->|]. split; [done|]. split; [done|]. split; [|done].
    unfold move_to_empty, bind, get, lift. rewrite decide_False by done.
    rewrite Hch. unfold move_agent, bind, get, lift.
    rewrite torus_adj_canonical by done. by rewrite Hrm1, Hpl.
Qed.

Lemma move_to_empty_draws_first_witness :
  let s := session [Mutate (PlaceAgent 0%nat (0, 0))] (init SingleGrid 2 1 false) in
  (_empties s = ∅ -> move_to_empty 0%nat 5%nat s = (Err NoEmptyCells, s)) /\
  (_empties s ≠ ∅ ->
   exists new_pos s1 s2,
     choice 5%nat (empties s) = Ok new_pos /\
     new_pos ∈ _empties s /\ new_pos ≠ (0, 0) /\
     remove_agent 0%nat s = (Ok 0%nat, s1) /\
     place_agent 0%nat new_pos s1 = (Ok 0%nat, s2) /\
     move_to_empty 0%nat 5%nat s = (Ok tt, s2) /\
     agent_pos s2 0%nat = Some new_pos).
Proof.
  intros s. apply (move_to_empty_draws_first s 0%nat 5%nat (0, 0) [0%nat]).
  - apply wf_session_init; [lia|lia|]. repeat constructor; simpl; lia.
  - reflexivity.
  - reflexivity.
  - set_solver.
Defined.

(** C2 as stated fails: on a full grid the code raises, whereas a draw
    from the EmptySet reached after the agent's own removal would find the
    vacated cell and succeed. *)
Lemma move_to_empty_not_after_removal :
  let s := session [Mutate (PlaceAgent 0%nat (0, 0))] (init MultiGrid 1 1 false) in
  move_to_empty 0%nat 0%nat s = (Err NoEmptyCells, s) /\
  (move_to_empty_spec 0%nat 0%nat s).1 = Ok tt /\
  agent_pos (move_to_empty_spec 0%nat 0%nat s).2 0%nat = Some (0, 0) /\
  _empties (remove_agent 0%nat s).2 ≠ ∅.
Proof.
  intros s. split; [|split; [|split]]; try reflexivity.
  intros He. vm_compute in He. discriminate.
Qed.

(** ** The neighborhood computation *)

Lemma add_coord_union (coord : Coordinate) (acc : gset Coordinate) : add_coord coord acc = acc ∪ {[coord]}.
Proof. unfold add_coord. case_decide; set_solver. Qed.

Lemma neighborhood_step_eq s p moore ic radius dy dx acc :
  wf s ->
  neighborhood_step s p moore ic radius dy dx acc =
    Ok (acc ∪ list_to_set
                ((if keep_offset moore ic radius dx dy then [(dx, dy)] else [])
                   ≫= candidate s p)).
Proof.
  intros Hwf. unfold neighborhood_step, keep_offset.
  destruct (bool_decide (dx = 0) && bool_decide (dy = 0) && negb ic); simpl.
  { f_equal. set_solver. }
  destruct (negb moore && bool_decide (Z.abs dx + Z.abs dy > radius)); simpl.
  { f_equal. set_solver. }
  unfold candidate. simpl. destruct (torus s) eqn:Ht; simpl.
  - rewrite (torus_adj_torus s _ Hwf Ht). simpl.
    destruct (out_of_bounds s _) eqn:Ho; simpl.
    + rewrite add_coord_union. f_equal. set_solver.
    + apply out_of_bounds_false in Ho as [Hx Hy]; [|done]. simpl in Hx, Hy.
      rewrite !Z.mod_small by done. rewrite add_coord_union. f_equal. set_solver.
  - destruct (out_of_bounds s _) eqn:Ho; simpl.
    + apply out_of_bounds_true in Ho; [|done].
      rewrite bool_decide_eq_false_2 by done. f_equal. set_solver.
    + apply out_of_bounds_false in Ho; [|done].
      rewrite bool_decide_eq_true_2 by done. rewrite add_coord_union.
      f_equal. set_solver.
Qed.

Lemma neighborhood_inner_eq s p moore ic radius dy dxs acc :
  wf s ->
  for_each dxs (neighborhood_step s p moore ic radius dy) acc =
    Ok (acc ∪ list_to_set
                ((dxs ≫= fun dx =>
                    if keep_offset moore ic radius dx dy then [(dx, dy)] else [])
                   ≫= candidate s p)).
Proof.
  intros Hwf. revert acc. induction dxs as [|dx dxs IH]; intros acc; simpl.
  - f_equal. set_solver.
  - rewrite neighborhood_step_eq by done. simpl. rewrite IH.
    f_equal. rewrite bind_app, list_to_set_app_L. set_solver.
Qed.

Lemma neighborhood_outer_eq s p moore ic radius dys dxs acc :
  wf s ->
  for_each dys
    (fun dy => for_each dxs (neighborhood_step s p moore ic radius dy)) acc =
    Ok (acc ∪ list_to_set
                ((dys ≫= fun dy => dxs ≫= fun dx =>
                    if keep_offset moore ic radius dx dy then [(dx, dy)] else [])
                   ≫= candidate s p)).
Proof.
  intros Hwf. revert acc. induction dys as [|dy dys IH]; intros acc; simpl.
  - f_equal. set_solver.
  - rewrite neighborhood_inner_eq by done. simpl. rewrite IH.
    f_equal. rewrite bind_app, list_to_set_app_L. set_solver.
Qed.

(** In a well-formed state the loops always finish, with the set of the
    candidates of the kept offsets. *)
Lemma neighborhood_coordinates_eq s p moore ic radius :
  wf s ->
  neighborhood_coordinates s p moore ic radius =
    Ok (list_to_set (neighborhood_list s p moore ic radius)).
Proof.
  intros Hwf. unfold neighborhood_coordinates.
  rewrite neighborhood_outer_eq by done. f_equal. set_solver.
Qed.

Lemma get_neighborhood_miss s p moore ic radius :
  wf s -> _neighborhood_cache s !! (p, moore, ic, radius) = None ->
  get_neighborhood p moore ic radius s =
    let v := sorted (list_to_set (neighborhood_list s p moore ic radius)) in
    (Ok v, set_cache (<[(p, moore, ic, radius) := v]> (_neighborhood_cache s)) s).
Proof.
  intros Hwf Hk. unfold get_neighborhood.
  by rewrite Hk, neighborhood_coordinates_eq.
Qed.

Lemma get_neighborhood_hit s p moore ic radius v :
  _neighborhood_cache s !! (p, moore, ic, radius) = Some v ->
  get_neighborhood p moore ic radius s = (Ok v, s).
Proof. intros Hk. unfold get_neighborhood. by rewrite Hk. Qed.

(** With a sound cache the answer is the computed one, hit or miss. *)
Lemma get_neighborhood_value s p moore ic radius :
  wf s -> cache_sound s ->
  (get_neighborhood p moore ic radius s).1 =
    Ok (sorted (list_to_set (neighborhood_list s p moore ic radius))).
Proof.
  intros Hwf Hsound.
  destruct (_neighborhood_cache s !! (p, moore, ic, radius)) as [v|] eqn:Hk.
  - rewrite (get_neighborhood_hit s p moore ic radius v) by done.
    apply Hsound in Hk as (cs & Hcs & ->). simpl in Hcs.
    rewrite neighborhood_coordinates_eq in Hcs by done. by injection Hcs as <-.
  - by rewrite get_neighborhood_miss.
Qed.

Lemma cache_sound_init c w h t : cache_sound (init c w h t).
Proof. intros k v Hk. simpl in Hk. by rewrite lookup_empty in Hk. Qed.

Lemma cache_sound_frame s s' : frame s s' -> cache_sound s -> cache_sound s'.
Proof.
  intros (_&Hh&Hw&Ht&Hall&_&Hnew) Hsound k v Hk.
  apply (computed_topology s' s); [done..|].
  destruct (Hnew k v Hk) as [Hold|Hc]; [by apply Hsound|done].
Qed.

Lemma cache_sound_session c w h t ms : cache_sound (session ms (init c w h t)).
Proof.
  eapply cache_sound_frame; [apply frame_session|apply cache_sound_init].
Qed.

(** C6: on a 5x5 torus grid holding one agent at (0,0),
    [get_neighborhood((0,0), moore=True, include_center=False, radius=1)]
    returns the eight coordinates below, in this order, which is ascending
    and free of duplicates; the offset (-1,-1) wraps to (4,4). *)
Theorem moore_neighborhood_5x5_torus :
  let s := session [Mutate (PlaceAgent 0%nat (0, 0))] (init MultiGrid 5 5 true) in
  let l := [(0, 1); (0, 4); (1, 0); (1, 1); (1, 4); (4, 0); (4, 1); (4, 4)] in
  (get_neighborhood (0, 0) true false 1 s).1 = Ok l /\
  NoDup l /\ Sorted coord_le l /\
  torus_adj s (0 + -1, 0 + -1) = Ok (4, 4).
Proof.
  intros s l. split; [by vm_compute|]. split; [|split; [|by vm_compute]].
  - apply (bool_decide_unpack _). by vm_compute.
  - apply (bool_decide_unpack _). by vm_compute.
Qed.

(** ** The neighborhood cache *)

(** C9: in a well-formed state [get_neighborhood] returns a list; on a
    miss the state it leaves differs from the one it was called in by
    exactly the one new cache entry, which holds the returned list; every
    later call with the same arguments, whatever methods were called in
    between, returns the same list and changes nothing; and every entry of
    the cache is still there, with the same value, after any further
    method calls. *)
Theorem get_neighborhood_cached p moore ic radius s :
  wf s ->
  exists v s1,
    get_neighborhood p moore ic radius s = (Ok v, s1) /\
    (_neighborhood_cache s !! (p, moore, ic, radius) = None ->
     s1 = set_cache (<[(p, moore, ic, radius) := v]> (_neighborhood_cache s)) s /\
     size (_neighborhood_cache s1) = S (size (_neighborhood_cache s))) /\
    (forall ms,
       get_neighborhood p moore ic radius (session ms s1) = (Ok v, session ms s1)) /\
    (forall ms k v',
       _neighborhood_cache s1 !! k = Some v' ->
       _neighborhood_cache (session ms s1) !! k = Some v').
Proof.
  intros Hwf.
  assert (forall s1 ms k v',
            _neighborhood_cache s1 !! k = Some v' ->
            _neighborhood_cache (session ms s1) !! k = Some v') as Hkept.
  { intros s1 ms k v' Hk.
    pose proof (frame_session ms s1) as (_&_&_&_&_&Hsub&_).
    by eapply lookup_weaken. }
  destruct (_neighborhood_cache s !! (p, moore, ic, radius)) as [v|] eqn:Hk.
  - exists v, s. split; [by apply get_neighborhood_hit|].
    split; [done|]. split; [|by apply Hkept].
    intros ms. apply get_neighborhood_hit. by apply Hkept.
  - eexists _, _. split; [by apply get_neighborhood_miss|].
    split; [|split; [|by apply Hkept]].
    + intros _. split; [done|]. simpl. by rewrite map_size_insert_None.
    + intros ms. apply get_neighborhood_hit. apply Hkept. simpl.
      apply lookup_insert_eq.
Qed.

Lemma get_neighborhood_cached_witness :
  exists v s1,
    get_neighborhood (0, 0) false true 2 (init SingleGrid 3 3 true) = (Ok v, s1) /\
    (_neighborhood_cache (init SingleGrid 3 3 true) !! (0, 0, false, true, 2) = None ->
     s1 = set_cache (<[(0, 0, false, true, 2) := v]>
                       (_neighborhood_cache (init SingleGrid 3 3 true)))
            (init SingleGrid 3 3 true) /\
     size (_neighborhood_cache s1) =
       S (size (_neighborhood_cache (init SingleGrid 3 3 true)))) /\
    (forall ms,
       get_neighborhood (0, 0) false true 2 (session ms s1) = (Ok v, session ms s1)) /\
    (forall ms k v',
       _neighborhood_cache s1 !! k = Some v' ->
       _neighborhood_cache (session ms s1) !! k = Some v').
Proof.
  apply (get_neighborhood_cached (0, 0) false true 2 (init SingleGrid 3 3 true)).
  apply wf_init; lia.
Defined.

(** ** Neighborhood sizes at radius 1 *)

Lemma bind_singleton_fmap {A B} (f : A -> B) (l : list A) :
  l ≫= (fun x => [f x]) = f <$> l.
Proof. induction l as [|a l IH]; csimpl; [done|]. by rewrite IH. Qed.

Lemma bind_guard_fmap_filter {A B} (P : A -> Prop) `{!forall x, Decision (P x)}
    (f : A -> B) (l : list A) :
  l ≫= (fun x => if bool_decide (P x) then [f x] else []) = f <$> filter P l.
Proof.
  induction l as [|a l IH]; csimpl; [done|]. rewrite IH, filter_cons.
  case_bool_decide; by case_decide.
Qed.

Lemma neighborhood_list_torus s p moore ic radius :
  torus s = true ->
  neighborhood_list s p moore ic radius =
    (fun o => ((p.1 + o.1) mod width s, (p.2 + o.2) mod height s))
      <$> offsets moore ic radius.
Proof.
  intros Ht. unfold neighborhood_list. rewrite <- bind_singleton_fmap.
  f_equal. unfold candidate. by rewrite Ht.
Qed.

Lemma neighborhood_list_bounded s p moore ic radius :
  torus s = false ->
  neighborhood_list s p moore ic radius =
    (fun o => (p.1 + o.1, p.2 + o.2))
      <$> filter (fun o => in_bounds s (p.1 + o.1, p.2 + o.2))
            (offsets moore ic radius).
Proof.
  intros Ht. unfold neighborhood_list.
  rewrite <- (bind_guard_fmap_filter
                (fun o => in_bounds s (p.1 + o.1, p.2 + o.2))).
  f_equal. unfold candidate. by rewrite Ht.
Qed.

Lemma offsets_moore_1 :
  offsets true false 1 =
    [(-1, -1); (0, -1); (1, -1); (-1, 0); (1, 0); (-1, 1); (0, 1); (1, 1)].
Proof. reflexivity. Qed.

Lemma offsets_von_neumann_1 :
  offsets false false 1 = [(0, -1); (-1, 0); (1, 0); (0, 1)].
Proof. reflexivity. Qed.

Lemma offsets_1_range moore o :
  o ∈ offsets moore false 1 -> -1 <= o.1 <= 1 /\ -1 <= o.2 <= 1.
Proof.
  destruct moore; [rewrite offsets_moore_1|rewrite offsets_von_neumann_1];
    rewrite !elem_of_cons, elem_of_nil; intros H;
    repeat (destruct H as [->|H]; [simpl; lia|]); done.
Qed.

Lemma offsets_1_NoDup moore : NoDup (offsets moore false 1).
Proof.
  destruct moore; [rewrite offsets_moore_1|rewrite offsets_von_neumann_1];
    apply (bool_decide_unpack _); by vm_compute.
Qed.

(** Two offsets in [-1, 1] wrap to different residues once the modulus
    is at least 3. *)
Lemma mod_shift_inj x w a b :
  3 <= w -> -1 <= a <= 1 -> -1 <= b <= 1 ->
  (x + a) mod w = (x + b) mod w -> a = b.
Proof.
  intros Hw Ha Hb Heq.
  assert ((a - b) mod w = 0) as Hz.
  { replace (a - b) with ((x + a) - (x + b)) by lia.
    rewrite Zminus_mod, Heq, Z.sub_diag. by apply Z.mod_0_l; lia. }
  destruct (decide (b <= a)) as [Hle|Hgt].
  - rewrite Z.mod_small in Hz by lia. lia.
  - assert ((b - a) mod w = 0) as Hz'.
    { replace (b - a) with ((x + b) - (x + a)) by lia.
      rewrite Zminus_mod, Heq, Z.sub_diag. by apply Z.mod_0_l; lia. }
    rewrite Z.mod_small in Hz' by lia. lia.
Qed.

Lemma neighbor_count_intro s p moore l :
  wf s -> cache_sound s ->
  neighborhood_list s p moore false 1 = l -> NoDup l ->
  neighbor_count s p moore (length l).
Proof.
  intros Hwf Hsound Hl Hnd. exists (sorted (list_to_set l)). split.
  - by rewrite get_neighborhood_value, Hl.
  - rewrite sorted_length. by apply size_list_to_set.
Qed.

(** On a torus of at least 3x3 no two kept offsets collide. *)
Lemma neighbor_count_torus s p moore :
  wf s -> cache_sound s -> torus s = true ->
  3 <= width s -> 3 <= height s ->
  neighbor_count s p moore (length (offsets moore false 1)).
Proof.
  intros Hwf Hsound Ht Hw Hh.
  rewrite <- (length_fmap
    (fun o => ((p.1 + o.1) mod width s, (p.2 + o.2) mod height s))).
  apply neighbor_count_intro; [done|done|by apply neighborhood_list_torus|].
  apply NoDup_fmap_2_strong; [|apply offsets_1_NoDup].
  intros [a1 a2] [b1 b2] Ha Hb [= H1 H2].
  apply offsets_1_range in Ha, Hb. simpl in *.
  apply mod_shift_inj in H1; [|lia..]. apply mod_shift_inj in H2; [|lia..].
  by subst.
Qed.

(** On a bounded grid the kept offsets that stay inside are counted. *)
Lemma neighbor_count_bounded s p moore :
  wf s -> cache_sound s -> torus s = false ->
  neighbor_count s p moore
    (length (filter (fun o => in_bounds s (p.1 + o.1, p.2 + o.2))
               (offsets moore false 1))).
Proof.
  intros Hwf Hsound Ht.
  rewrite <- (length_fmap (fun o => (p.1 + o.1, p.2 + o.2))).
  apply neighbor_count_intro; [done|done|by apply neighborhood_list_bounded|].
  apply NoDup_fmap_2_strong; [|apply NoDup_filter, offsets_1_NoDup].
  intros [a1 a2] [b1 b2] _ _ [= H1 H2]. f_equal; lia.
Qed.

Ltac eval_filter H :=
  repeat first
    [ rewrite filter_cons_True in H by (unfold in_bounds; simpl; lia)
    | rewrite filter_cons_False in H by (unfold in_bounds; simpl; lia) ];
  rewrite filter_nil in H.

Ltac count_bounded s x y moore Hwf Hsound Ht :=
  let H := fresh "Hcount" in
  pose proof (neighbor_count_bounded s (x, y) moore Hwf Hsound Ht) as H;
  first [rewrite offsets_moore_1 in H | rewrite offsets_von_neumann_1 in H];
  eval_filter H; exact H.

(** C7 (amended): for radius 1 without the center, in a well-formed state
    with a sound cache: on a torus of at least 3x3 the Moore neighborhood
    of every position has 8 coordinates and the Von Neumann neighborhood
    has 4; on a bounded grid of at least 2x2 the Moore neighborhood has 8
    coordinates at an interior cell, 5 at a cell on exactly one edge and 3
    at a corner, and the Von Neumann neighborhood has 2 at a corner. *)
Theorem neighborhood_counts s x y :
  wf s -> cache_sound s ->
  (torus s = true -> 3 <= width s -> 3 <= height s ->
   neighbor_count s (x, y) true 8 /\ neighbor_count s (x, y) false 4) /\
  (torus s = false -> 2 <= width s -> 2 <= height s ->
   (0 < x < width s - 1 /\ 0 < y < height s - 1 ->
    neighbor_count s (x, y) true 8) /\
   ((x = 0 \/ x = width s - 1) /\ 0 < y < height s - 1 \/
    0 < x < width s - 1 /\ (y = 0 \/ y = height s - 1) ->
    neighbor_count s (x, y) true 5) /\
   ((x = 0 \/ x = width s - 1) /\ (y = 0 \/ y = height s - 1) ->
    neighbor_count s (x, y) true 3 /\ neighbor_count s (x, y) false 2)).
Proof.
  intros Hwf Hsound. split.
  - intros Ht Hw Hh. split.
    + apply (neighbor_count_torus s (x, y) true); done.
    + apply (neighbor_count_torus s (x, y) false); done.
  - intros Ht Hw Hh. split; [|split].
    + intros [Hx Hy]. count_bounded s x y true Hwf Hsound Ht.
    + intros [[[Hx|Hx] Hy]|[Hx [Hy|Hy]]];
        count_bounded s x y true Hwf Hsound Ht.
    + intros [[Hx|Hx] [Hy|Hy]]; split;
        first [ count_bounded s x y true Hwf Hsound Ht
              | count_bounded s x y false Hwf Hsound Ht ].
Qed.

Lemma neighborhood_counts_witness :
  let s := init MultiGrid 4 3 false in
  (torus s = true -> 3 <= width s -> 3 <= height s ->
   neighbor_count s (0, 1) true 8 /\ neighbor_count s (0, 1) false 4) /\
  (torus s = false -> 2 <= width s -> 2 <= height s ->
   (0 < 0 < width s - 1 /\ 0 < 1 < height s - 1 ->
    neighbor_count s (0, 1) true 8) /\
   ((0 = 0 \/ 0 = width s - 1) /\ 0 < 1 < height s - 1 \/
    0 < 0 < width s - 1 /\ (1 = 0 \/ 1 = height s - 1) ->
    neighbor_count s (0, 1) true 5) /\
   ((0 = 0 \/ 0 = width s - 1) /\ (1 = 0 \/ 1 = height s - 1) ->
    neighbor_count s (0, 1) true 3 /\ neighbor_count s (0, 1) false 2)).
Proof.
  intros s. apply (neighborhood_counts s 0 1).
  - apply wf_init; lia.
  - apply cache_sound_init.
Defined.

(** C7 as stated fails on small grids: on a 2x2 torus the four Von
    Neumann offsets wrap onto two coordinates, and the only cell of a
    bounded 1x1 grid, a corner, has no neighbor at all. *)
Lemma neighborhood_counts_small_grids :
  neighbor_count (init MultiGrid 2 2 true) (0, 0) false 2 /\
  ~ neighbor_count (init MultiGrid 2 2 true) (0, 0) false 4 /\
  neighbor_count (init MultiGrid 1 1 false) (0, 0) true 0 /\
  ~ neighbor_count (init MultiGrid 1 1 false) (0, 0) true 3.
Proof.
  split; [|split; [|split]].
  - exists [(0, 1); (1, 0)]. by vm_compute.
  - intros (l & Hl & Hlen). vm_compute in Hl. injection Hl as <-. discriminate.
  - exists []. by vm_compute.
  - intros (l & Hl & Hlen). vm_compute in Hl. injection Hl as <-. discriminate.
Qed.

(** * Further properties of the code *)

(** ** Ordering of coordinates *)

#[global] Instance coord_le_total : Total coord_le.
Proof. intros [a b] [c d]. unfold coord_le. simpl. lia. Qed.

#[global] Instance coord_le_trans : Transitive coord_le.
Proof. intros [a b] [c d] [e f]. unfold coord_le. simpl. lia. Qed.

#[global] Instance coord_le_antisymm : AntiSymm (=) coord_le.
Proof.
  intros [a b] [c d]. unfold coord_le. simpl. intros H1 H2. f_equal; lia.
Qed.

Lemma sorted_Sorted (X : gset Coordinate) : Sorted coord_le (sorted X).
Proof. unfold sorted. apply (Sorted_merge_sort coord_le). Qed.

Lemma sorted_NoDup (X : gset Coordinate) : NoDup (sorted X).
Proof.
  unfold sorted. rewrite (merge_sort_Permutation coord_le). apply NoDup_elements.
Qed.

(** A sorted, duplicate-free list is what [sorted] gives for its set. *)
Lemma sorted_of_list (X : gset Coordinate) (l : list Coordinate) :
  Sorted coord_le l -> NoDup l -> (forall p, p ∈ X <-> p ∈ l) -> sorted X = l.
Proof.
  intros Hs Hnd Hl. apply (Sorted_unique coord_le); [apply sorted_Sorted|done|].
  apply NoDup_Permutation; [apply sorted_NoDup|done|].
  intros p. by rewrite sorted_elem_of.
Qed.

Lemma StronglySorted_seqZ_nat k m : StronglySorted Z.lt (seqZ m (Z.of_nat k)).
Proof.
  revert m. induction k as [|k IH]; intros m; [constructor|].
  rewrite seqZ_cons by lia.
  replace (Z.pred (Z.of_nat (S k))) with (Z.of_nat k) by lia.
  constructor; [apply IH|]. apply Forall_forall. intros i Hi.
  apply elem_of_seqZ in Hi. lia.
Qed.

Lemma StronglySorted_range lo hi : StronglySorted Z.lt (range lo hi).
Proof.
  unfold range. destruct (decide (hi - lo <= 0)) as [Hle|Hgt].
  - rewrite seqZ_nil by done. constructor.
  - replace (hi - lo) with (Z.of_nat (Z.to_nat (hi - lo))) by lia.
    apply StronglySorted_seqZ_nat.
Qed.

Lemma StronglySorted_lt_NoDup (l : list Z) : StronglySorted Z.lt l -> NoDup l.
Proof.
  induction 1 as [|x l Hl IH Hall]; constructor; [|done].
  intros Hin. rewrite Forall_forall in Hall. specialize (Hall x Hin). lia.
Qed.

Lemma product_StronglySorted xs ys :
  StronglySorted Z.lt xs -> StronglySorted Z.lt ys ->
  StronglySorted coord_le (product xs ys).
Proof.
  intros Hxs Hys. unfold product.
  induction Hxs as [|x xs Hxs IH Hall]; csimpl; [constructor|].
  apply StronglySorted_app_2; [| |done].
  - intros p1 p2 Hp1 Hp2.
    apply list_elem_of_fmap in Hp1 as (y1 & -> & _).
    apply list_elem_of_bind in Hp2 as (x2 & Hp2 & Hx2).
    apply list_elem_of_fmap in Hp2 as (y2 & -> & _).
    rewrite Forall_forall in Hall. specialize (Hall x2 Hx2).
    unfold coord_le. simpl. lia.
  - eapply StronglySorted_fmap; [|exact Hys].
    intros y1 y2 Hlt. unfold coord_le. simpl. lia.
Qed.

Lemma product_NoDup xs ys : NoDup xs -> NoDup ys -> NoDup (product xs ys).
Proof.
  intros Hxs Hys. unfold product. apply NoDup_bind; [| |done].
  - intros x1 x2 p _ _ H1 H2.
    apply list_elem_of_fmap in H1 as (y1 & -> & _).
    apply list_elem_of_fmap in H2 as (y2 & [= -> _] & _). done.
  - intros x _. apply NoDup_fmap_2; [|done]. by intros y1 y2 [= ->].
Qed.

Lemma product_length xs ys : length (product xs ys) = (length xs * length ys)%nat.
Proof.
  unfold product. induction xs as [|x xs IH]; csimpl; [done|].
  by rewrite length_app, length_fmap, IH.
Qed.

(** The cells of a set that holds exactly the canonical coordinates, in
    the order [sorted] lists them. *)
Lemma sorted_all_canonical (X : gset Coordinate) w h :
  (forall p, p ∈ X <-> 0 <= p.1 < w /\ 0 <= p.2 < h) ->
  sorted X = product (range 0 w) (range 0 h).
Proof.
  intros HX. apply sorted_of_list.
  - apply StronglySorted_Sorted, product_StronglySorted; apply StronglySorted_range.
  - apply product_NoDup; apply StronglySorted_lt_NoDup, StronglySorted_range.
  - intros [x y]. by rewrite HX, elem_of_product, !elem_of_range.
Qed.

(** ** The constructor and the bounds resolver *)

(** X1: on a freshly constructed grid, whatever the width and height
    given, [out_of_bounds] is false exactly on [[0,width) x [0,height)]. *)
Theorem out_of_bounds_fresh c w h t x y :
  out_of_bounds (init c w h t) (x, y) = false <-> 0 <= x < w /\ 0 <= y < h.
Proof.
  unfold out_of_bounds. rewrite bool_decide_eq_false.
  rewrite (init_all_cells c w h t (x, y)). unfold in_bounds. simpl.
  split; [apply dec_stable|by intros ??].
Qed.

(** X2: a freshly constructed grid lists, as [empties] and as
    [all_cells], every coordinate of [[0,width) x [0,height)] once, column
    by column with rows ascending; there are width times height of them,
    none when a dimension is not positive. *)
Theorem fresh_grid_cells c w h t :
  empties (init c w h t) = product (range 0 w) (range 0 h) /\
  all_cells (init c w h t) = product (range 0 w) (range 0 h) /\
  length (empties (init c w h t)) = (Z.to_nat w * Z.to_nat h)%nat.
Proof.
  assert (empties (init c w h t) = product (range 0 w) (range 0 h)) as He.
  { apply sorted_all_canonical. intros p.
    change (_empties (init c w h t)) with (_all_cells (init c w h t)).
    apply init_all_cells. }
  split; [done|]. split; [exact He|].
  rewrite He, product_length. unfold range. rewrite !length_seqZ.
  by rewrite !Z.sub_0_r.
Qed.

(** X3: in a well-formed state, a coordinate [torus_adj] returns is
    canonical, is congruent to the argument modulo the dimensions, is the
    argument itself when that was canonical, and is returned unchanged when
    resolved again. *)
Theorem torus_adj_result s p p' :
  wf s -> torus_adj s p = Ok p' ->
  in_bounds s p' /\
  torus_adj s p' = Ok p' /\
  (p'.1 - p.1) mod width s = 0 /\ (p'.2 - p.2) mod height s = 0 /\
  (in_bounds s p -> p' = p).
Proof.
  intros Hwf Hadj.
  pose proof (torus_adj_in_bounds s p p' Hwf Hadj) as Hb.
  pose proof (wf_width s Hwf) as Hw. pose proof (wf_height s Hwf) as Hh.
  split; [done|]. split; [by apply torus_adj_canonical|].
  destruct (torus s) eqn:Ht.
  - rewrite torus_adj_torus in Hadj by done. injection Hadj as <-. simpl.
    split; [|split].
    + rewrite Zminus_mod, Z.mod_mod, Z.sub_diag by lia. by apply Z.mod_0_l; lia.
    + rewrite Zminus_mod, Z.mod_mod, Z.sub_diag by lia. by apply Z.mod_0_l; lia.
    + intros [Hx Hy]. destruct p as [x y]. simpl in *.
      by rewrite !Z.mod_small by done.
  - unfold torus_adj in Hadj. rewrite Ht in Hadj.
    destruct (out_of_bounds s p); simpl in Hadj; [done|].
    injection Hadj as <-. rewrite !Z.sub_diag.
    split; [by apply Z.mod_0_l; lia|]. split; [by apply Z.mod_0_l; lia|done].
Qed.

Lemma torus_adj_result_witness :
  in_bounds (init MultiGrid 4 3 true) (3, 2) /\
  torus_adj (init MultiGrid 4 3 true) (3, 2) = Ok (3, 2) /\
  ((3, 2).1 - (-1, -4).1) mod width (init MultiGrid 4 3 true) = 0 /\
  ((3, 2).2 - (-1, -4).2) mod height (init MultiGrid 4 3 true) = 0 /\
  (in_bounds (init MultiGrid 4 3 true) (-1, -4) -> (3, 2) = (-1, -4)).
Proof.
  apply (torus_adj_result (init MultiGrid 4 3 true) (-1, -4) (3, 2)).
  - apply wf_init; lia.
  - reflexivity.
Defined.

(** ** A torus with a zero dimension *)

Lemma init_zero_dimension_out_of_bounds c w h t p :
  w = 0 \/ h = 0 -> out_of_bounds (init c w h t) p = true.
Proof.
  intros Hz. unfold out_of_bounds. apply bool_decide_eq_true_2.
  rewrite (init_all_cells c w h t p). unfold in_bounds. simpl. lia.
Qed.

Lemma torus_adj_zero_dimension c w h p :
  w = 0 \/ h = 0 -> torus_adj (init c w h true) p = Err ZeroDivisionError.
Proof.
  intros Hz. unfold torus_adj.
  rewrite init_zero_dimension_out_of_bounds by done. simpl. unfold py_mod.
  destruct (decide (w = 0)); [done|]. simpl.
  destruct (decide (h = 0)); [done|lia].
Qed.

Lemma neighborhood_step_zero_dimension c w h p moore ic radius dy dx acc :
  w = 0 \/ h = 0 ->
  neighborhood_step (init c w h true) p moore ic radius dy dx acc =
    if keep_offset moore ic radius dx dy then Err ZeroDivisionError else Ok acc.
Proof.
  intros Hz. unfold neighborhood_step, keep_offset.
  destruct (bool_decide (dx = 0) && bool_decide (dy = 0) && negb ic); [done|].
  destruct (negb moore && bool_decide (Z.abs dx + Z.abs dy > radius)); [done|].
  rewrite init_zero_dimension_out_of_bounds by done.
  change (torus (init c w h true)) with true. simpl.
  by rewrite torus_adj_zero_dimension.
Qed.

Lemma for_each_raises {A S} (l : list A) (body : A -> S -> result S)
    (raises : A -> bool) e acc :
  (forall a acc', body a acc' = if raises a then Err e else Ok acc') ->
  for_each l body acc = if existsb raises l then Err e else Ok acc.
Proof.
  intros Hbody. induction l as [|a l IH]; simpl; [done|].
  rewrite Hbody. destruct (raises a); simpl; [done|apply IH].
Qed.

(** X4: on a torus grid constructed with a zero width or height,
    [torus_adj] raises [ZeroDivisionError] for every position, and so does
    [get_neighborhood] with the center included and a radius that is not
    negative, leaving the cache as it was. *)
Theorem zero_dimension_torus c w h p moore radius :
  w = 0 \/ h = 0 -> 0 <= radius ->
  torus_adj (init c w h true) p = Err ZeroDivisionError /\
  get_neighborhood p moore true radius (init c w h true) =
    (Err ZeroDivisionError, init c w h true).
Proof.
  intros Hz Hr. split; [by apply torus_adj_zero_dimension|].
  unfold get_neighborhood. simpl. rewrite lookup_empty.
  unfold neighborhood_coordinates.
  rewrite (for_each_raises _ _
             (fun dy => existsb (fun dx => keep_offset moore true radius dx dy)
                          (range (- radius) (radius + 1)))
             ZeroDivisionError).
  - replace (existsb _ _) with true; [done|]. symmetry.
    apply existsb_exists. exists 0. split.
    { apply list_elem_of_In, elem_of_range. lia. }
    apply existsb_exists. exists 0. split.
    { apply list_elem_of_In, elem_of_range. lia. }
    unfold keep_offset. simpl.
    rewrite bool_decide_eq_false_2 by (simpl; lia). by rewrite andb_false_r.
  - intros dy acc. apply for_each_raises. intros dx acc'.
    by apply neighborhood_step_zero_dimension.
Qed.

Lemma zero_dimension_torus_witness :
  torus_adj (init MultiGrid 0 3 true) (1, 1) = Err ZeroDivisionError /\
  get_neighborhood (1, 1) false true 2 (init MultiGrid 0 3 true) =
    (Err ZeroDivisionError, init MultiGrid 0 3 true).
Proof.
  apply (zero_dimension_torus MultiGrid 0 3 (1, 1) false 2); [by left|lia].
Defined.

(** ** The EmptySet seen from outside *)

(** X5: in every state the [empties] property is ascending in the tuple
    order, has no duplicates, and holds exactly the coordinates for which
    [is_cell_empty] answers true. *)
Theorem empties_sorted s :
  Sorted coord_le (empties s) /\ NoDup (empties s) /\
  forall p, p ∈ empties s <-> is_cell_empty s p = true.
Proof.
  split; [apply sorted_Sorted|]. split; [apply sorted_NoDup|].
  intros p. unfold empties, is_cell_empty.
  by rewrite sorted_elem_of, bool_decide_eq_true.
Qed.

(** X6: [find_empty] never raises: it returns [None] when the EmptySet is
    empty, and otherwise a coordinate for which [is_cell_empty] answers
    true; [exists_empty_cells] tells the two cases apart. *)
Theorem find_empty_spec s rnd :
  (exists_empty_cells s = false /\ _empties s = ∅ /\ find_empty s rnd = Ok None) \/
  (exists_empty_cells s = true /\
   exists p, find_empty s rnd = Ok (Some p) /\ is_cell_empty s p = true).
Proof.
  unfold find_empty, exists_empty_cells.
  destruct (decide (size (_empties s) = 0%nat)) as [Hz|Hnz].
  - left. rewrite bool_decide_eq_false_2 by lia.
    split; [done|]. split; [|done]. by apply size_empty_inv, leibniz_equiv in Hz.
  - right. rewrite bool_decide_eq_true_2 by lia. split; [done|].
    destruct (choice_nonempty rnd (empties s)) as [p Hp].
    { intros Hnil. apply Hnz. unfold empties in Hnil.
      by rewrite <- sorted_length, Hnil. }
    exists p. rewrite Hp. split; [done|].
    apply choice_Ok in Hp. unfold empties in Hp. rewrite sorted_elem_of in Hp.
    unfold is_cell_empty. by apply bool_decide_eq_true_2.
Qed.

(** ** Removal *)

Lemma update_cell_failure_atomic f p s e s' :
  update_cell f p s = (Err e, s') -> s' = s.
Proof.
  unfold update_cell.
  destruct (py_index (_grid s) p.1) as [i|]; [|by intros [= _ <-]].
  destruct (_grid s !! i) as [col|]; [|by intros [= _ <-]].
  destruct (py_index col p.2) as [j|]; [|by intros [= _ <-]].
  destruct (col !! j) as [content|]; [|by intros [= _ <-]].
  destruct (f content); [done|by intros [= _ <-]].
Qed.

(** X7: a [remove_agent] that raises has changed nothing: not a cell, not
    the EmptySet, not a position field. *)
Theorem remove_agent_failure_atomic a s e s' :
  remove_agent a s = (Err e, s') -> s' = s.
Proof.
  unfold remove_agent, bind, getattr_pos.
  destruct (agent_pos s a) as [[x y]|]; [|by intros [= _ <-]].
  destruct (update_cell (list_remove a) (x, y) s) as [[c'|e'] s1] eqn:Hup.
  - by destruct c'.
  - intros [= _ <-]. by eapply update_cell_failure_atomic.
Qed.

Lemma remove_agent_failure_atomic_witness :
  (remove_agent 1%nat (place_agent 0%nat (0, 0) (init MultiGrid 2 2 false)).2).2 =
  (place_agent 0%nat (0, 0) (init MultiGrid 2 2 false)).2.
Proof.
  apply (remove_agent_failure_atomic 1%nat
           (place_agent 0%nat (0, 0) (init MultiGrid 2 2 false)).2 NotPlaced).
  reflexivity.
Defined.

(** ** Placement seen from outside *)

(** The state a successful [place_agent] leaves, whatever the class. *)
Lemma place_agent_Ok s a p v s' :
  wf s -> in_bounds s p -> place_agent a p s = (Ok v, s') ->
  v = a /\
  exists c,
    (cls s = MultiGrid -> grid_cell s p = Ok c) /\
    (cls s ≠ MultiGrid -> c = []) /\
    grid_cell s' p = Ok (c ++ [a]) /\
    agent_pos s' a = Some p /\
    (p ∉ _empties s') /\
    (forall q, in_bounds s q -> q ≠ p -> grid_cell s' q = grid_cell s q) /\
    (forall q, q ≠ p -> (q ∈ _empties s' <-> q ∈ _empties s)) /\
    (forall b, b ≠ a -> agent_pos s' b = agent_pos s b).
Proof.
  intros Hwf Hp. pose proof (wf_shape s Hwf) as Hs.
  destruct (grid_cell_cell_at s p Hs Hp) as (c & _ & Hc).
  assert (forall c0 s0,
            grid_shape s0 -> in_bounds s0 p -> grid_cell s0 p = Ok c0 ->
            MultiGrid_place_agent a p s0 = (Ok v, s') ->
            v = a /\ grid_cell s' p = Ok (c0 ++ [a]) /\
            agent_pos s' a = Some p /\ (p ∉ _empties s') /\
            (forall q, in_bounds s0 q -> q ≠ p -> grid_cell s' q = grid_cell s0 q) /\
            (forall q, q ≠ p -> (q ∈ _empties s' <-> q ∈ _empties s0)) /\
            (forall b, b ≠ a -> agent_pos s' b = agent_pos s0 b)) as Hmulti.
  { intros c0 s0 Hs0 Hp0 Hc0. rewrite (MultiGrid_place_agent_eq a p c0 s0) by done.
    intros [= <- <-]. split; [done|]. split.
    { by apply (grid_cell_put_cell_eq p (c0 ++ [a]) s0). }
    split; [apply fn_lookup_insert|]. split; [simpl; set_solver|]. split.
    { intros q Hq Hne. by apply (grid_cell_put_cell_ne p q (c0 ++ [a]) s0). }
    split; [simpl; set_solver|]. intros b Hb. by apply fn_lookup_insert_ne. }
  unfold place_agent, bind, get. destruct (cls s) eqn:Hcls.
  - intros Hrun. destruct (Hmulti c s Hs Hp Hc Hrun) as (-> & ? & ? & ? & ? & ? & ?).
    split; [done|]. exists c. split; [done|]. split; [by intros []|].
    by split_and!.
  - destruct (decide (p ∈ _empties s)) as [Hin|Hout];
      [|by rewrite SingleGrid_place_agent_occupied].
    rewrite SingleGrid_place_agent_empty by done. intros Hrun.
    destruct (empties_cell_empty s p Hwf Hin) as [_ Hnil].
    destruct (Hmulti [] s Hs Hp Hnil Hrun) as (-> & ? & ? & ? & ? & ? & ?).
    split; [done|]. exists []. split; [done|]. split; [done|].
    by split_and!.
  - destruct (decide (p ∈ _empties s)) as [Hin|Hout].
    + rewrite Grid_place_agent_empty by done. intros Hrun.
      destruct (empties_cell_empty s p Hwf Hin) as [_ Hnil].
      destruct (Hmulti [] s Hs Hp Hnil Hrun) as (-> & ? & ? & ? & ? & ? & ?).
      split; [done|]. exists []. split; [done|]. split; [done|].
      by split_and!.
    + rewrite (Grid_place_agent_evict a p c s) by done. intros Hrun.
      destruct (Hmulti [] (set_empties ({[p]} ∪ _empties s) (put_cell p [] s)))
        as (-> & Hcell & Hpos & Hne & Hothers & Hemp & Hposs);
        [by apply grid_shape_put_cell|done|
         by apply (grid_cell_put_cell_eq p [] s)|done|].
      split; [done|]. exists []. split; [done|]. split; [done|].
      split; [done|]. split; [done|]. split; [done|]. split; [|split; [|done]].
      * intros q Hq Hqp. rewrite Hothers by done.
        by apply (grid_cell_put_cell_ne p q [] s).
      * intros q Hqp. rewrite Hemp by done. simpl. set_solver.
Qed.

(** [place_agent] succeeds unless the class is exclusive and the cell is
    taken. *)
Lemma place_agent_succeeds s a p :
  wf s -> in_bounds s p -> (cls s = SingleGrid -> p ∈ _empties s) ->
  exists s', place_agent a p s = (Ok a, s').
Proof.
  intros Hwf Hp Hsingle. unfold place_agent, bind, get.
  destruct (cls s) eqn:Hcls.
  - destruct (MultiGrid_place_agent_wf a p s Hwf Hp) as (s1 & -> & _). eauto.
  - rewrite SingleGrid_place_agent_empty by auto.
    destruct (MultiGrid_place_agent_wf a p s Hwf Hp) as (s1 & -> & _). eauto.
  - destruct (decide (p ∈ _empties s)) as [Hin|Hout].
    + rewrite Grid_place_agent_empty by done.
      destruct (MultiGrid_place_agent_wf a p s Hwf Hp) as (s1 & -> & _). eauto.
    + destruct (grid_cell_cell_at s p (wf_shape s Hwf) Hp) as (c & _ & Hc).
      rewrite (Grid_place_agent_evict a p c s) by (done || apply Hwf).
      destruct (MultiGrid_place_agent_wf a p _ (wf_evicted p s Hwf Hp) Hp)
        as (s1 & -> & _). eauto.
Qed.

(** X8: after a successful [place_agent(agent, pos)] at a canonical
    position, whatever the class: the agent is returned, it is the last
    agent of the cell (behind the former occupants under multi-occupancy,
    alone otherwise), its position field reads [pos], [pos] is not in the
    EmptySet, and every other cell, every other membership of the EmptySet
    and every other position field are as before. *)
Theorem place_agent_lookup s a p v s' :
  wf s -> in_bounds s p -> place_agent a p s = (Ok v, s') ->
  v = a /\
  exists c,
    (cls s = MultiGrid -> grid_cell s p = Ok c) /\
    (cls s ≠ MultiGrid -> c = []) /\
    grid_cell s' p = Ok (c ++ [a]) /\
    agent_pos s' a = Some p /\
    is_cell_empty s' p = false /\
    (forall q, in_bounds s q -> q ≠ p -> grid_cell s' q = grid_cell s q) /\
    (forall q, q ≠ p -> is_cell_empty s' q = is_cell_empty s q) /\
    (forall b, b ≠ a -> agent_pos s' b = agent_pos s b).
Proof.
  intros Hwf Hp Hrun.
  destruct (place_agent_Ok s a p v s' Hwf Hp Hrun)
    as (-> & c & Hm & Hn & Hcell & Hpos & Hne & Hothers & Hemp & Hposs).
  split; [done|]. exists c. split; [done|]. split; [done|]. split; [done|].
  split; [done|]. split; [by apply bool_decide_eq_false_2|].
  split; [done|]. split; [|done].
  intros q Hq. unfold is_cell_empty. apply bool_decide_ext. by apply Hemp.
Qed.

Lemma place_agent_lookup_witness :
  let s := session [Mutate (PlaceAgent 0%nat (1, 1))] (init MultiGrid 2 2 false) in
  let s' := (place_agent 1%nat (1, 1) s).2 in
  1%nat = 1%nat /\
  exists c,
    (cls s = MultiGrid -> grid_cell s (1, 1) = Ok c) /\
    (cls s ≠ MultiGrid -> c = []) /\
    grid_cell s' (1, 1) = Ok (c ++ [1%nat]) /\
    agent_pos s' 1%nat = Some (1, 1) /\
    is_cell_empty s' (1, 1) = false /\
    (forall q, in_bounds s q -> q ≠ (1, 1) -> grid_cell s' q = grid_cell s q) /\
    (forall q, q ≠ (1, 1) -> is_cell_empty s' q = is_cell_empty s q) /\
    (forall b, b ≠ 1%nat -> agent_pos s' b = agent_pos s b).
Proof.
  intros s s'. apply (place_agent_lookup s 1%nat (1, 1) 1%nat s').
  - apply wf_session_init; [lia|lia|]. repeat constructor; simpl; lia.
  - by vm_compute.
  - reflexivity.
Defined.

(** The state [remove_agent] leaves for an agent its cell holds. *)
Lemma remove_agent_placed s a p c :
  wf s -> agent_pos s a = Some p -> grid_cell s p = Ok c -> a ∈ c ->
  exists c' s1,
    list_remove a c = Ok c' /\
    remove_agent a s = (Ok a, s1) /\
    wf s1 /\ frame s s1 /\
    agent_pos s1 a = None /\
    grid_cell s1 p = Ok c' /\
    (p ∈ _empties s1 <-> c' = []) /\
    (forall q, in_bounds s q -> q ≠ p -> grid_cell s1 q = grid_cell s q) /\
    (forall q, q ≠ p -> (q ∈ _empties s1 <-> q ∈ _empties s)) /\
    (forall b, b ≠ a -> agent_pos s1 b = agent_pos s b).
Proof.
  intros Hwf Ha Hc Hin. pose proof (wf_shape s Hwf) as Hs.
  assert (in_bounds s p) as Hp by by eapply wf_pos.
  destruct (list_remove_elem a c Hin) as [c' Hc']. exists c'.
  pose proof (remove_agent_eq a p c s Hs Ha Hp Hc) as Hrm. rewrite Hc' in Hrm.
  eexists. split; [done|]. split; [exact Hrm|].
  split; [by eapply remove_agent_wf|].
  split. { pose proof (preserves_remove_agent a s) as Hf. by rewrite Hrm in Hf. }
  assert (p ∉ _empties s) as Hpe.
  { apply (empties_cell_nonempty s p c); [done..|]. intros ->.
    by apply elem_of_nil in Hin. }
  split; [apply fn_lookup_insert|].
  split; [by apply (grid_cell_put_cell_eq p c' s)|].
  split; [destruct c'; simpl; set_solver|].
  split. { intros q Hq Hne. by apply (grid_cell_put_cell_ne p q c' s). }
  split; [destruct c'; simpl; set_solver|].
  intros b Hb. by apply fn_lookup_insert_ne.
Qed.

(** X9: [remove_agent] of an agent whose recorded cell holds it succeeds:
    the first occurrence of the agent leaves the cell, the position field
    becomes [None], the cell is in the EmptySet afterwards exactly when it
    became empty, and every other cell, EmptySet membership and position
    field is as before. *)
Theorem remove_agent_lookup s a p c :
  wf s -> agent_pos s a = Some p -> grid_cell s p = Ok c -> a ∈ c ->
  exists c' s1,
    list_remove a c = Ok c' /\
    remove_agent a s = (Ok a, s1) /\
    agent_pos s1 a = None /\
    grid_cell s1 p = Ok c' /\
    (is_cell_empty s1 p = true <-> c' = []) /\
    (forall q, in_bounds s q -> q ≠ p -> grid_cell s1 q = grid_cell s q) /\
    (forall q, q ≠ p -> is_cell_empty s1 q = is_cell_empty s q) /\
    (forall b, b ≠ a -> agent_pos s1 b = agent_pos s b).
Proof.
  intros Hwf Ha Hc Hin.
  destruct (remove_agent_placed s a p c Hwf Ha Hc Hin)
    as (c' & s1 & Hc' & Hrm & _ & _ & Hpos & Hcell & Hemp & Hothers & Hemps & Hposs).
  exists c', s1. split_and!; try done.
  - unfold is_cell_empty. by rewrite bool_decide_eq_true.
  - intros q Hq. unfold is_cell_empty. apply bool_decide_ext. by apply Hemps.
Qed.

Lemma remove_agent_lookup_witness :
  let s := session [Mutate (PlaceAgent 0%nat (1, 0)); Mutate (PlaceAgent 1%nat (1, 0));
                    Mutate (PlaceAgent 0%nat (1, 0))]
             (init MultiGrid 2 2 false) in
  exists c' s1,
    list_remove 0%nat [0%nat; 1%nat; 0%nat] = Ok c' /\
    remove_agent 0%nat s = (Ok 0%nat, s1) /\
    agent_pos s1 0%nat = None /\
    grid_cell s1 (1, 0) = Ok c' /\
    (is_cell_empty s1 (1, 0) = true <-> c' = []) /\
    (forall q, in_bounds s q -> q ≠ (1, 0) -> grid_cell s1 q = grid_cell s q) /\
    (forall q, q ≠ (1, 0) -> is_cell_empty s1 q = is_cell_empty s q) /\
    (forall b, b ≠ 0%nat -> agent_pos s1 b = agent_pos s b).
Proof.
  intros s. apply (remove_agent_lookup s 0%nat (1, 0) [0%nat; 1%nat; 0%nat]).
  - apply wf_session_init; [lia|lia|]. repeat constructor; simpl; lia.
  - reflexivity.
  - reflexivity.
  - set_solver.
Defined.

(** ** Moving *)

(** X10: on a torus, [move_agent] to a position and to that position
    reduced modulo the dimensions are the same call. *)
Theorem move_agent_torus_wraps s a p :
  wf s -> torus s = true ->
  move_agent a p s = move_agent a (p.1 mod width s, p.2 mod height s) s.
Proof.
  intros Hwf Ht. unfold move_agent, bind, get, lift.
  rewrite !torus_adj_torus by done. simpl.
  pose proof (wf_width s Hwf). pose proof (wf_height s Hwf).
  by rewrite !Z.mod_mod by lia.
Qed.

Lemma move_agent_torus_wraps_witness :
  let s := session [Mutate (PlaceAgent 0%nat (0, 0))] (init MultiGrid 3 3 true) in
  move_agent 0%nat (-1, 7) s =
  move_agent 0%nat ((-1, 7).1 mod width s, (-1, 7).2 mod height s) s.
Proof.
  intros s. apply (move_agent_torus_wraps s 0%nat (-1, 7)).
  - apply wf_session_init; [lia|lia|]. repeat constructor; simpl; lia.
  - reflexivity.
Defined.

(** X11: [move_agent] of an agent its recorded cell holds, to a
    position [torus_adj] resolves, succeeds under the multi-occupancy and
    evicting classes, and under the exclusive class when the destination
    is empty or is the cell the agent occupies alone; afterwards the agent
    is the last agent of the destination cell, its position field reads
    the resolved position, and the state is well-formed. *)
Theorem move_agent_succeeds s a p c q q' :
  wf s -> agent_pos s a = Some p -> grid_cell s p = Ok c -> a ∈ c ->
  torus_adj s q = Ok q' ->
  (cls s = SingleGrid -> q' ∈ _empties s \/ (q' = p /\ c = [a])) ->
  exists s' c',
    move_agent a q s = (Ok a, s') /\
    agent_pos s' a = Some q' /\
    grid_cell s' q' = Ok (c' ++ [a]) /\
    wf s'.
Proof.
  intros Hwf Ha Hc Hin Hadj Hdest.
  destruct (remove_agent_placed s a p c Hwf Ha Hc Hin)
    as (c1 & s1 & Hc1 & Hrm & Hwf1 & Hfr & _ & _ & Hemp & _ & Hemps & _).
  pose proof (torus_adj_in_bounds s q q' Hwf Hadj) as Hq.
  assert (in_bounds s1 q') as Hq1 by by apply (in_bounds_frame s s1).
  destruct (place_agent_succeeds s1 a q' Hwf1 Hq1) as [s2 Hpl].
  { destruct Hfr as (Hcls & _). rewrite Hcls. intros Hsingle.
    destruct (Hdest Hsingle) as [Hempty|[-> ->]].
    - destruct (decide (q' = p)) as [->|Hne]; [|by apply Hemps].
      exfalso. eapply (empties_cell_nonempty s p c); [done..| |done].
      intros ->. by apply elem_of_nil in Hin.
    - apply Hemp. simpl in Hc1. rewrite decide_True in Hc1 by done.
      by injection Hc1 as <-. }
  destruct (place_agent_Ok s1 a q' a s2 Hwf1 Hq1 Hpl)
    as (_ & c' & _ & _ & Hcell & Hpos & _).
  exists s2, c'. split; [|split; [done|split; [done|]]].
  - unfold move_agent, bind, get, lift. by rewrite Hadj, Hrm, Hpl.
  - by eapply place_agent_wf.
Qed.

Lemma move_agent_succeeds_witness :
  let s := session [Mutate (PlaceAgent 0%nat (0, 0))] (init SingleGrid 3 3 true) in
  exists s' c',
    move_agent 0%nat (3, -3) s = (Ok 0%nat, s') /\
    agent_pos s' 0%nat = Some (0, 0) /\
    grid_cell s' (0, 0) = Ok (c' ++ [0%nat]) /\
    wf s'.
Proof.
  intros s. apply (move_agent_succeeds s 0%nat (0, 0) [0%nat] (3, -3) (0, 0)).
  - apply wf_session_init; [lia|lia|]. repeat constructor; simpl; lia.
  - reflexivity.
  - reflexivity.
  - set_solver.
  - reflexivity.
  - intros _. by right.
Defined.

(** X12: under the exclusive class a [move_agent] to an occupied cell
    other than the agent's own is not undone: it raises the cell-occupied
    exception after the agent has been taken off its cell, so the call
    leaves the agent in no cell it was removed from, with its position
    field [None]. *)
Theorem move_agent_occupied_detaches s a p c q q' :
  wf s -> cls s = SingleGrid ->
  agent_pos s a = Some p -> grid_cell s p = Ok c -> a ∈ c ->
  torus_adj s q = Ok q' -> q' ≠ p -> q' ∉ _empties s ->
  exists c' s1,
    list_remove a c = Ok c' /\
    remove_agent a s = (Ok a, s1) /\
    move_agent a q s = (Err CellOccupied, s1) /\
    agent_pos s1 a = None /\
    grid_cell s1 p = Ok c'.
Proof.
  intros Hwf Hcls Ha Hc Hin Hadj Hne Hocc.
  destruct (remove_agent_placed s a p c Hwf Ha Hc Hin)
    as (c1 & s1 & Hc1 & Hrm & Hwf1 & Hfr & Hpos & Hcell & _ & _ & Hemps & _).
  exists c1, s1. split_and!; try done.
  unfold move_agent, bind, get, lift. rewrite Hadj, Hrm.
  unfold place_agent, bind, get. destruct Hfr as (-> & _). rewrite Hcls.
  rewrite SingleGrid_place_agent_occupied; [done|]. by rewrite Hemps.
Qed.

Lemma move_agent_occupied_detaches_witness :
  let s := session [Mutate (PlaceAgent 0%nat (0, 0)); Mutate (PlaceAgent 1%nat (1, 1))]
             (init SingleGrid 2 2 false) in
  exists c' s1,
    list_remove 0%nat [0%nat] = Ok c' /\
    remove_agent 0%nat s = (Ok 0%nat, s1) /\
    move_agent 0%nat (1, 1) s = (Err CellOccupied, s1) /\
    agent_pos s1 0%nat = None /\
    grid_cell s1 (0, 0) = Ok c'.
Proof.
  intros s.
  apply (move_agent_occupied_detaches s 0%nat (0, 0) [0%nat] (1, 1) (1, 1)).
  - apply wf_session_init; [lia|lia|]. repeat constructor; simpl; lia.
  - reflexivity.
  - reflexivity.
  - reflexivity.
  - set_solver.
  - reflexivity.
  - discriminate.
  - apply (proj1 (bool_decide_eq_false ((1, 1) ∈ _empties s))). by vm_compute.
Defined.

(** ** Positioning *)

(** X13: [position_agent] with ["random"] for either coordinate, on a
    [SingleGrid] or [Grid] object: when the EmptySet is empty it raises
    the grid-full exception and changes nothing; otherwise it succeeds,
    the other coordinate plays no part, and the agent ends up alone in a
    cell drawn from the EmptySet, with its position field set to it. *)
Theorem position_agent_random s a x y rnd :
  wf s -> cls s ≠ MultiGrid -> x = Random \/ y = Random ->
  (_empties s = ∅ /\ position_agent a x y rnd s = (Err GridFull, s)) \/
  (exists p s',
     choice rnd (empties s) = Ok p /\ p ∈ _empties s /\
     position_agent a x y rnd s = (Ok tt, s') /\
     grid_cell s' p = Ok [a] /\ agent_pos s' a = Some p).
Proof.
  intros Hwf Hcls Hrandom.
  assert (is_random x || is_random y = true) as Hr.
  { destruct Hrandom as [-> | ->]; [done|]. by destruct x. }
  assert (position_agent a x y rnd s = SingleGrid_position_agent a x y rnd s) as ->.
  { unfold position_agent, bind, get. by destruct (cls s). }
  unfold SingleGrid_position_agent, bind, get. rewrite Hr.
  destruct (decide (size (_empties s) = 0%nat)) as [Hz|Hnz].
  - left. split; [|done]. by apply size_empty_inv, leibniz_equiv in Hz.
  - right. destruct (choice_nonempty rnd (empties s)) as [p Hp].
    { intros Hnil. apply Hnz. unfold empties in Hnil.
      by rewrite <- sorted_length, Hnil. }
    destruct (choice_empties_in_bounds rnd s p Hwf Hp) as [Hin Hb].
    unfold lift. rewrite Hp. unfold setattr_pos, modify.
    destruct (place_agent_empty_succeeds
                (set_agent_pos (<[a:=Some p]> (agent_pos s)) s) a p)
      as (s' & Hpl & Hcell & Hpos); [by apply wf_setattr_pos|done|].
    exists p, s'. rewrite Hpl. by split_and!.
Qed.

Lemma position_agent_random_witness :
  let s := session [Mutate (PlaceAgent 0%nat (0, 0))] (init Grid 2 2 false) in
  (_empties s = ∅ /\ position_agent 1%nat (Int 0) Random 3%nat s = (Err GridFull, s)) \/
  (exists p s',
     choice 3%nat (empties s) = Ok p /\ p ∈ _empties s /\
     position_agent 1%nat (Int 0) Random 3%nat s = (Ok tt, s') /\
     grid_cell s' p = Ok [1%nat] /\ agent_pos s' 1%nat = Some p).
Proof.
  intros s. apply (position_agent_random s 1%nat (Int 0) Random 3%nat).
  - apply wf_session_init; [lia|lia|]. repeat constructor; simpl; lia.
  - discriminate.
  - by right.
Defined.

(** X14: under the exclusive class [position_agent] with explicit
    coordinates of an occupied cell raises the cell-occupied exception,
    and the only trace it leaves is the agent's position field, already
    overwritten with those coordinates although no cell there holds the
    agent through this call. *)
Theorem position_agent_occupied_sets_pos s a x y rnd :
  cls s = SingleGrid -> (x, y) ∉ _empties s ->
  position_agent a (Int x) (Int y) rnd s =
    (Err CellOccupied, set_agent_pos (<[a := Some (x, y)]> (agent_pos s)) s).
Proof.
  intros Hcls Hocc. unfold position_agent, bind, get. rewrite Hcls.
  unfold SingleGrid_position_agent, bind, get, lift, ret, setattr_pos, modify.
  simpl. unfold place_agent, bind, get. simpl. rewrite Hcls.
  by rewrite SingleGrid_place_agent_occupied.
Qed.

Lemma position_agent_occupied_sets_pos_witness :
  let s := session [Mutate (PlaceAgent 0%nat (1, 1))] (init SingleGrid 2 2 false) in
  position_agent 5%nat (Int 1) (Int 1) 0%nat s =
    (Err CellOccupied, set_agent_pos (<[5%nat := Some (1, 1)]> (agent_pos s)) s).
Proof.
  intros s. apply (position_agent_occupied_sets_pos s 5%nat 1 1 0%nat).
  - reflexivity.
  - apply (proj1 (bool_decide_eq_false ((1, 1) ∈ _empties s))). by vm_compute.
Defined.

(** ** At most one agent per cell *)

Lemma single_occupancy_put_cell p c s :
  grid_shape s -> in_bounds s p -> (length c <= 1)%nat ->
  single_occupancy s -> single_occupancy (put_cell p c s).
Proof.
  intros Hs Hp Hc Hsingle q c0 Hq Hc0. destruct (decide (q = p)) as [->|Hne].
  - rewrite grid_cell_put_cell_eq in Hc0 by done. by injection Hc0 as <-.
  - rewrite grid_cell_put_cell_ne in Hc0 by done. by eapply Hsingle.
Qed.

Lemma list_remove_length a c c' :
  list_remove a c = Ok c' -> length c = S (length c').
Proof.
  revert c'. induction c as [|b c IH]; intros c'; simpl; [done|].
  destruct (decide (b = a)); [by intros [= <-]|].
  destruct (list_remove a c) as [r|]; simpl; [|done].
  intros [= <-]. simpl. by rewrite (IH r).
Qed.

Lemma remove_agent_single_occupancy a r s s' :
  wf s -> single_occupancy s -> remove_agent a s = (r, s') -> single_occupancy s'.
Proof.
  intros Hwf Hsingle. destruct (agent_pos s a) as [p|] eqn:Ha;
    [|rewrite remove_agent_unplaced by done; by intros [= _ <-]].
  assert (in_bounds s p) as Hp by by eapply wf_pos.
  destruct (grid_cell_cell_at s p (wf_shape s Hwf) Hp) as (c & _ & Hc).
  rewrite (remove_agent_eq a p c s) by (done || apply Hwf).
  destruct (list_remove a c) as [c'|e] eqn:Hrm; [|by intros [= _ <-]].
  intros [= _ <-]. apply (single_occupancy_put_cell p c' s); [apply Hwf|done| |done].
  apply list_remove_length in Hrm. specialize (Hsingle p c Hp Hc). lia.
Qed.

Lemma place_agent_single_occupancy a p r s s' :
  wf s -> in_bounds s p -> cls s ≠ MultiGrid -> single_occupancy s ->
  place_agent a p s = (r, s') -> single_occupancy s'.
Proof.
  intros Hwf Hp Hcls Hsingle Hrun. destruct r as [v|e].
  - destruct (place_agent_Ok s a p v s' Hwf Hp Hrun)
      as (_ & c & _ & Hnil & Hcell & _ & _ & Hothers & _).
    rewrite (Hnil Hcls) in Hcell.
    pose proof (preserves_place_agent a p s) as Hfr. rewrite Hrun in Hfr.
    intros q c0 Hq Hc0. apply (in_bounds_frame s s') in Hq; [|done].
    destruct (decide (q = p)) as [->|Hne].
    + rewrite Hcell in Hc0. by injection Hc0 as <-.
    + rewrite Hothers in Hc0 by done. by eapply Hsingle.
  - revert Hrun. unfold place_agent, bind, get. destruct (cls s) eqn:Hc; [done| |].
    + destruct (decide (p ∈ _empties s)) as [Hin|Hout].
      * rewrite SingleGrid_place_agent_empty by done.
        by destruct (MultiGrid_place_agent_wf a p s Hwf Hp) as (s1 & -> & _).
      * rewrite SingleGrid_place_agent_occupied by done. by intros [= _ <-].
    + destruct (place_agent_succeeds s a p Hwf Hp) as [s1 Hok];
        [by rewrite Hc|].
      unfold place_agent, bind, get in Hok. rewrite Hc in Hok. by rewrite Hok.
Qed.

Lemma single_occupancy_set_agent_pos f s :
  single_occupancy s -> single_occupancy (set_agent_pos f s).
Proof. done. Qed.

Lemma move_agent_single_occupancy a p r s s' :
  wf s -> cls s ≠ MultiGrid -> single_occupancy s ->
  move_agent a p s = (r, s') -> single_occupancy s'.
Proof.
  intros Hwf Hcls Hsingle. unfold move_agent, bind, get, lift.
  destruct (torus_adj s p) as [p'|e] eqn:Hadj; [|by intros [= _ <-]].
  apply torus_adj_in_bounds in Hadj; [|done].
  destruct (remove_agent a s) as [r2 s2] eqn:Hrm.
  pose proof (preserves_remove_agent a s) as Hfr. rewrite Hrm in Hfr.
  pose proof (remove_agent_wf a r2 s s2 Hwf Hrm) as Hwf2.
  pose proof (remove_agent_single_occupancy a r2 s s2 Hwf Hsingle Hrm) as Hs2.
  destruct r2 as [v2|e]; [|by intros [= _ <-]].
  destruct (place_agent a p' s2) as [r3 s3] eqn:Hpl.
  apply place_agent_single_occupancy in Hpl;
    [|done|by apply (in_bounds_frame s s2)| |done].
  - destruct r3; by intros [= _ <-].
  - destruct Hfr as (Hc & _). simpl in Hc. by rewrite Hc.
Qed.

Lemma SingleGrid_position_agent_single_occupancy a x y rnd r s s' :
  wf s -> cls s ≠ MultiGrid ->
  canonical (width s) (height s) (PositionAgent a x y rnd) ->
  single_occupancy s ->
  SingleGrid_position_agent a x y rnd s = (r, s') -> single_occupancy s'.
Proof.
  intros Hwf Hcls Hcan Hsingle.
  unfold SingleGrid_position_agent, bind, get, lift, ret, setattr_pos, modify.
  assert (forall p, in_bounds s p ->
            match place_agent a p
                    (set_agent_pos (<[a:=Some p]> (agent_pos s)) s) with
            | (Ok _, s2) => (Ok tt, s2)
            | (Err e, s2) => (Err e, s2)
            end = (r, s') -> single_occupancy s') as Hplace.
  { intros p Hp. destruct (place_agent a p _) as [r2 s2] eqn:Hpl.
    apply place_agent_single_occupancy in Hpl;
      [|by apply wf_setattr_pos|exact Hp|exact Hcls|exact Hsingle].
    destruct r2; by intros [= _ <-]. }
  destruct x as [|x], y as [|y]; simpl;
    try (destruct (decide _); [by intros [= _ <-]|];
         destruct (choice rnd (empties s)) as [p|e] eqn:Hch;
           [|by intros [= _ <-]];
         apply Hplace; by eapply choice_empties_in_bounds).
  apply Hplace. exact Hcan.
Qed.

Lemma call_single_occupancy o r s s' :
  wf s -> cls s ≠ MultiGrid -> canonical (width s) (height s) o ->
  single_occupancy s -> call o s = (r, s') -> single_occupancy s'.
Proof.
  intros Hwf Hcls Hcan Hsingle.
  destruct o as [a p|a x y rnd|a p|a|a rnd]; simpl.
  - unfold bind. destruct (place_agent a p s) as [r1 s1] eqn:Hpl.
    apply place_agent_single_occupancy in Hpl; [|done..].
    destruct r1; by intros [= _ <-].
  - unfold position_agent, bind, get. destruct (cls s) eqn:Hc; [done|..];
      apply SingleGrid_position_agent_single_occupancy; try done;
      by rewrite Hc.
  - unfold bind. destruct (move_agent a p s) as [r1 s1] eqn:Hmv.
    apply move_agent_single_occupancy in Hmv; [|done..].
    destruct r1; by intros [= _ <-].
  - unfold bind. destruct (remove_agent a s) as [r1 s1] eqn:Hrm.
    apply remove_agent_single_occupancy in Hrm; [|done..].
    destruct r1; by intros [= _ <-].
  - unfold move_to_empty, bind, get, lift.
    destruct (decide _); [by intros [= _ <-]|].
    destruct (choice rnd (empties s)) as [p|e]; [|by intros [= _ <-]].
    destruct (move_agent a p s) as [r1 s1] eqn:Hmv.
    apply move_agent_single_occupancy in Hmv; [|done..].
    destruct r1; by intros [= _ <-].
Qed.

Lemma session_single_occupancy ms s :
  wf s -> cls s ≠ MultiGrid -> Forall (protocol (width s) (height s)) ms ->
  single_occupancy s -> single_occupancy (session ms s).
Proof.
  revert s. induction ms as [|m ms IH]; intros s Hwf Hcls Hms Hsingle; simpl;
    [done|].
  apply Forall_cons in Hms as [Hm Hms].
  pose proof (preserves_invoke m s) as (Hc&Hh&Hw&_).
  apply IH; [by apply invoke_wf|by rewrite Hc|by rewrite Hh, Hw|].
  destruct m as [o| |p moore ic radius]; simpl in *; [|done|].
  - destruct (call o s) as [r s1] eqn:Hcall. by eapply call_single_occupancy.
  - unfold bind, get_neighborhood.
    destruct (_neighborhood_cache s !! _); [done|].
    by destruct (neighborhood_coordinates _ _ _ _ _).
Qed.

(** X15: on a [SingleGrid] or [Grid] object constructed with positive
    dimensions, after any session of protocol calls, successful or not,
    every cell holds at most one agent. *)
Theorem single_occupancy_invariant c w h t ms :
  c ≠ MultiGrid -> 0 < w -> 0 < h -> Forall (protocol w h) ms ->
  single_occupancy (session ms (init c w h t)).
Proof.
  intros Hc Hw Hh Hms. apply session_single_occupancy;
    [by apply wf_init|done|done|].
  intros p c0 Hp Hc0.
  pose proof (wf_init c w h t Hw Hh) as Hwf.
  assert (p ∈ _empties (init c w h t)) as Hin.
  { change (_empties (init c w h t)) with (_all_cells (init c w h t)).
    by apply init_all_cells. }
  apply (wf_empties _ Hwf) in Hin as [_ Hnil]. rewrite Hnil in Hc0.
  injection Hc0 as <-. simpl. lia.
Qed.

Lemma single_occupancy_invariant_witness :
  single_occupancy
    (session [Mutate (PlaceAgent 0%nat (0, 0)); Mutate (PlaceAgent 1%nat (0, 0));
              Mutate (MoveToEmpty 1%nat 1%nat)]
       (init Grid 2 2 true)).
Proof.
  apply (single_occupancy_invariant Grid 2 2 true).
  - discriminate.
  - lia.
  - lia.
  - repeat constructor; simpl; lia.
Defined.

(** ** Recorded positions name a cell that holds the agent *)

Lemma list_remove_other a b c c' :
  b ≠ a -> b ∈ c -> list_remove a c = Ok c' -> b ∈ c'.
Proof.
  intros Hne. revert c'. induction c as [|x c IH]; intros c' Hin; simpl;
    [by apply elem_of_nil in Hin|].
  destruct (decide (x = a)) as [->|Hxa].
  - intros [= <-]. set_solver.
  - destruct (list_remove a c) as [r|] eqn:Hr; simpl; [|done].
    intros [= <-]. apply elem_of_cons in Hin as [->|Hin]; [set_solver|].
    apply elem_of_cons. right. by apply IH.
Qed.

Lemma remove_agent_pos_inv a r s s' :
  wf s -> pos_inv s -> remove_agent a s = (r, s') -> pos_inv s'.
Proof.
  intros Hwf Hinv. destruct (agent_pos s a) as [p|] eqn:Ha;
    [|rewrite remove_agent_unplaced by done; by intros [= _ <-]].
  assert (in_bounds s p) as Hp by by eapply wf_pos.
  destruct (grid_cell_cell_at s p (wf_shape s Hwf) Hp) as (c & _ & Hc).
  rewrite (remove_agent_eq a p c s) by (done || apply Hwf).
  destruct (list_remove a c) as [c'|e] eqn:Hrm; [|by intros [= _ <-]].
  intros [= _ <-] b q. simpl. unfold insert, fn_insert.
  case_decide as Hab; [done|]. intros Hb.
  destruct (Hinv b q Hb) as (cb & Hcb & Hbin).
  assert (in_bounds s q) as Hq by by eapply wf_pos.
  destruct (decide (q = p)) as [->|Hne].
  - exists c'. split; [apply (grid_cell_put_cell_eq p c' s); [apply Hwf|done]|].
    rewrite Hc in Hcb. injection Hcb as <-.
    by apply (list_remove_other a b c c').
  - exists cb. split; [|done]. rewrite <- Hcb.
    apply (grid_cell_put_cell_ne p q c' s); [apply Hwf|done..].
Qed.

Lemma place_agent_pos_inv a p v s s' :
  wf s -> in_bounds s p -> cls s ≠ Grid ->
  (forall b q, b ≠ a -> agent_pos s b = Some q ->
               exists c, grid_cell s q = Ok c /\ b ∈ c) ->
  place_agent a p s = (Ok v, s') -> pos_inv s'.
Proof.
  intros Hwf Hp Hcls Hinv Hrun.
  destruct (place_agent_Ok s a p v s' Hwf Hp Hrun)
    as (_ & c & Hm & Hn & Hcell & Hpos & _ & Hothers & _ & Hposs).
  assert (grid_cell s p = Ok c) as Hold.
  { destruct (cls s) eqn:Hc; [by apply Hm| |done].
    rewrite Hn by done.
    destruct (decide (p ∈ _empties s)) as [Hin|Hout];
      [by apply (wf_empties s Hwf)|].
    unfold place_agent, bind, get in Hrun. rewrite Hc in Hrun.
    by rewrite SingleGrid_place_agent_occupied in Hrun. }
  intros b q Hb. destruct (decide (b = a)) as [->|Hne].
  - rewrite Hpos in Hb. injection Hb as <-. exists (c ++ [a]).
    split; [done|]. set_solver.
  - rewrite Hposs in Hb by done. destruct (Hinv b q Hne Hb) as (cb & Hcb & Hbin).
    destruct (decide (q = p)) as [->|Hqp].
    + exists (c ++ [a]). split; [done|]. rewrite Hold in Hcb.
      injection Hcb as <-. set_solver.
    + exists cb. split; [|done]. rewrite <- Hcb. apply Hothers; [|done].
      by eapply wf_pos.
Qed.

Lemma move_agent_pos_inv a p v s s' :
  wf s -> cls s ≠ Grid -> pos_inv s ->
  move_agent a p s = (Ok v, s') -> pos_inv s'.
Proof.
  intros Hwf Hcls Hinv. unfold move_agent, bind, get, lift.
  destruct (torus_adj s p) as [p'|e] eqn:Hadj; [|done].
  apply torus_adj_in_bounds in Hadj; [|done].
  destruct (remove_agent a s) as [r2 s2] eqn:Hrm.
  pose proof (preserves_remove_agent a s) as Hfr. rewrite Hrm in Hfr.
  pose proof (remove_agent_wf a r2 s s2 Hwf Hrm) as Hwf2.
  pose proof (remove_agent_pos_inv a r2 s s2 Hwf Hinv Hrm) as Hinv2.
  destruct r2 as [v2|e]; [|done]. simpl in Hfr.
  destruct (place_agent a p' s2) as [[v3|e] s3] eqn:Hpl; [|done].
  intros [= _ <-]. eapply (place_agent_pos_inv a p' v3 s2); [done| | | |done].
  - by apply (in_bounds_frame s s2).
  - destruct Hfr as (Hc & _). by rewrite Hc.
  - intros b q _. apply Hinv2.
Qed.

Lemma call_pos_inv o s s' :
  wf s -> cls s ≠ Grid -> canonical (width s) (height s) o ->
  pos_inv s -> call o s = (Ok tt, s') -> pos_inv s'.
Proof.
  intros Hwf Hcls Hcan Hinv.
  destruct o as [a p|a x y rnd|a p|a|a rnd]; simpl.
  - unfold bind. destruct (place_agent a p s) as [[v|e] s1] eqn:Hpl; [|done].
    intros [= <-]. eapply place_agent_pos_inv; [done..| |done].
    intros b q _. apply Hinv.
  - unfold position_agent, bind, get. destruct (cls s) eqn:Hc; [done| |done].
    unfold SingleGrid_position_agent, bind, get, lift, ret, setattr_pos, modify.
    assert (forall p, in_bounds s p ->
              match place_agent a p
                      (set_agent_pos (<[a:=Some p]> (agent_pos s)) s) with
              | (Ok _, s2) => (Ok tt, s2)
              | (Err e, s2) => (Err e, s2)
              end = (Ok tt, s') -> pos_inv s') as Hplace.
    { intros p Hp. destruct (place_agent a p _) as [[v2|e] s2] eqn:Hpl; [|done].
      intros [= <-].
      apply (place_agent_pos_inv a p v2
               (set_agent_pos (<[a:=Some p]> (agent_pos s)) s));
        [by apply wf_setattr_pos|exact Hp|simpl; congruence| |exact Hpl].
      intros b q Hb. simpl. rewrite fn_lookup_insert_ne by done. apply Hinv. }
    destruct x as [|x], y as [|y]; simpl;
      try (destruct (decide _); [done|];
           destruct (choice rnd (empties s)) as [p|e] eqn:Hch; [|done];
           apply Hplace; by eapply choice_empties_in_bounds).
    apply Hplace. exact Hcan.
  - unfold bind. destruct (move_agent a p s) as [[v|e] s1] eqn:Hmv; [|done].
    intros [= <-]. by eapply move_agent_pos_inv.
  - unfold bind. destruct (remove_agent a s) as [[v|e] s1] eqn:Hrm; [|done].
    intros [= <-]. by eapply remove_agent_pos_inv.
  - unfold move_to_empty, bind, get, lift. destruct (decide _); [done|].
    destruct (choice rnd (empties s)) as [p|e]; [|done].
    destruct (move_agent a p s) as [[v|e] s1] eqn:Hmv; [|done].
    intros [= <-]. by eapply move_agent_pos_inv.
Qed.

Lemma session_pos_inv ms s :
  wf s -> cls s ≠ Grid -> Forall (protocol (width s) (height s)) ms ->
  succeeded ms s -> pos_inv s -> pos_inv (session ms s).
Proof.
  revert s. induction ms as [|m ms IH]; intros s Hwf Hcls Hms Hok Hinv; simpl;
    [done|].
  apply Forall_cons in Hms as [Hm Hms]. destruct Hok as [Hok Hoks].
  pose proof (preserves_invoke m s) as (Hc&Hh&Hw&_).
  apply IH; [by apply invoke_wf|by rewrite Hc|by rewrite Hh, Hw|done|].
  destruct m as [o| |p moore ic radius]; simpl in *; [|done|].
  - destruct (call o s) as [r s1] eqn:Hcall. simpl in Hok. subst r.
    by eapply call_pos_inv.
  - unfold bind, get_neighborhood.
    destruct (_neighborhood_cache s !! _); [done|].
    by destruct (neighborhood_coordinates _ _ _ _ _).
Qed.

(** X16: on a [MultiGrid] or [SingleGrid] object constructed with
    positive dimensions, after a session of protocol calls that all
    returned normally, the position field of an agent, when set, names a
    cell that holds the agent; so [remove_agent] on such an agent
    succeeds. *)
Theorem recorded_position_holds_agent c w h t ms :
  c ≠ Grid -> 0 < w -> 0 < h -> Forall (protocol w h) ms ->
  succeeded ms (init c w h t) ->
  pos_inv (session ms (init c w h t)) /\
  forall a p, agent_pos (session ms (init c w h t)) a = Some p ->
              (remove_agent a (session ms (init c w h t))).1 = Ok a.
Proof.
  intros Hc Hw Hh Hms Hok.
  assert (pos_inv (session ms (init c w h t))) as Hinv.
  { apply session_pos_inv; [by apply wf_init|done|done|done|].
    by intros a p. }
  split; [done|]. intros a p Ha. destruct (Hinv a p Ha) as (c0 & Hc0 & Hin).
  destruct (remove_agent_placed _ a p c0 (wf_session_init c w h t ms Hw Hh Hms)
              Ha Hc0 Hin) as (c' & s1 & _ & -> & _). done.
Qed.

Lemma recorded_position_holds_agent_witness :
  let s := session [Mutate (PlaceAgent 0%nat (0, 0)); Mutate (PlaceAgent 1%nat (0, 0));
                    Mutate (MoveAgent 0%nat (1, 1))]
             (init MultiGrid 2 2 false) in
  pos_inv s /\
  forall a p, agent_pos s a = Some p -> (remove_agent a s).1 = Ok a.
Proof.
  intros s. apply (recorded_position_holds_agent MultiGrid 2 2 false).
  - discriminate.
  - lia.
  - lia.
  - repeat constructor; simpl; lia.
  - by vm_compute.
Defined.

(** ** What a neighborhood holds *)

Lemma keep_offset_spec moore ic radius dx dy :
  keep_offset moore ic radius dx dy = true <->
  (ic = true \/ dx ≠ 0 \/ dy ≠ 0) /\
  (moore = true \/ Z.abs dx + Z.abs dy <= radius).
Proof.
  unfold keep_offset. rewrite andb_true_iff, !negb_true_iff, !andb_false_iff.
  rewrite !bool_decide_eq_false, !negb_false_iff.
  destruct moore, ic; simpl; intuition (try discriminate; try lia).
Qed.

Lemma elem_of_offsets moore ic radius dx dy :
  (dx, dy) ∈ offsets moore ic radius <->
  - radius <= dx <= radius /\ - radius <= dy <= radius /\
  keep_offset moore ic radius dx dy = true.
Proof.
  unfold offsets. rewrite list_elem_of_bind. split.
  - intros (dy' & Hin & Hdy). apply list_elem_of_bind in Hin as (dx' & Hin & Hdx).
    apply elem_of_range in Hdy, Hdx.
    destruct (keep_offset moore ic radius dx' dy') eqn:Hk;
      [|by apply elem_of_nil in Hin].
    apply list_elem_of_singleton in Hin as [= -> ->]. split_and!; (done || lia).
  - intros (Hdx & Hdy & Hk). exists dy. split; [|apply elem_of_range; lia].
    apply list_elem_of_bind. exists dx. split; [|apply elem_of_range; lia].
    rewrite Hk. by apply list_elem_of_singleton.
Qed.

(** The answer of [get_neighborhood] in terms of the kept offsets. *)
Lemma get_neighborhood_elem s p moore ic radius :
  wf s -> cache_sound s ->
  exists l,
    (get_neighborhood p moore ic radius s).1 = Ok l /\
    Sorted coord_le l /\ NoDup l /\
    forall q, q ∈ l <-> q ∈ neighborhood_list s p moore ic radius.
Proof.
  intros Hwf Hsound. eexists. split; [by apply get_neighborhood_value|].
  split; [apply sorted_Sorted|]. split; [apply sorted_NoDup|].
  intros q. by rewrite sorted_elem_of, elem_of_list_to_set.
Qed.

Lemma elem_of_neighborhood_list s p moore ic radius q :
  q ∈ neighborhood_list s p moore ic radius <->
  exists dx dy,
    (dx, dy) ∈ offsets moore ic radius /\
    if torus s then q = ((p.1 + dx) mod width s, (p.2 + dy) mod height s)
    else in_bounds s (p.1 + dx, p.2 + dy) /\ q = (p.1 + dx, p.2 + dy).
Proof.
  unfold neighborhood_list. rewrite list_elem_of_bind. unfold candidate. split.
  - intros ([dx dy] & Hq & Ho). exists dx, dy. split; [done|]. simpl in Hq.
    destruct (torus s).
    + by apply list_elem_of_singleton in Hq.
    + case_bool_decide; [|by apply elem_of_nil in Hq].
      by apply list_elem_of_singleton in Hq.
  - intros (dx & dy & Ho & Hq). exists (dx, dy). split; [|done]. simpl.
    destruct (torus s).
    + by apply list_elem_of_singleton.
    + destruct Hq as [Hb ->]. rewrite bool_decide_eq_true_2 by done.
      by apply list_elem_of_singleton.
Qed.

Lemma neighborhood_list_in_bounds s p moore ic radius q :
  wf s -> q ∈ neighborhood_list s p moore ic radius -> in_bounds s q.
Proof.
  intros Hwf Hq. apply elem_of_neighborhood_list in Hq as (dx & dy & _ & Hq).
  destruct (torus s); [|by destruct Hq as [? ->]]. subst q. split; simpl.
  - apply Z.mod_pos_bound, Hwf.
  - apply Z.mod_pos_bound, Hwf.
Qed.

(** X17: in a well-formed state with a sound cache [get_neighborhood]
    returns, for any arguments, a list that is ascending in the tuple
    order, has no duplicates and holds canonical coordinates only. *)
Theorem get_neighborhood_sorted_canonical s p moore ic radius :
  wf s -> cache_sound s ->
  exists l,
    (get_neighborhood p moore ic radius s).1 = Ok l /\
    Sorted coord_le l /\ NoDup l /\
    forall q, q ∈ l -> in_bounds s q.
Proof.
  intros Hwf Hsound.
  destruct (get_neighborhood_elem s p moore ic radius Hwf Hsound)
    as (l & Hl & Hsorted & Hnd & Helem).
  exists l. split_and!; try done. intros q Hq.
  apply (neighborhood_list_in_bounds s p moore ic radius); [done|].
  by apply Helem.
Qed.

Lemma get_neighborhood_sorted_canonical_witness :
  exists l,
    (get_neighborhood (7, -2) false true 3 (init Grid 4 5 true)).1 = Ok l /\
    Sorted coord_le l /\ NoDup l /\
    forall q, q ∈ l -> in_bounds (init Grid 4 5 true) q.
Proof.
  apply (get_neighborhood_sorted_canonical (init Grid 4 5 true) (7, -2) false true 3).
  - apply wf_init; lia.
  - apply cache_sound_init.
Defined.

(** X18: on a bounded grid the neighborhood of [p] holds exactly the
    canonical coordinates within [radius] of [p] in both axes, within
    Manhattan distance [radius] unless [moore] is set, and other than [p]
    unless [include_center] is set. *)
Theorem get_neighborhood_bounded_spec s p moore ic radius :
  wf s -> cache_sound s -> torus s = false ->
  exists l,
    (get_neighborhood p moore ic radius s).1 = Ok l /\
    forall q,
      q ∈ l <->
      in_bounds s q /\
      Z.abs (q.1 - p.1) <= radius /\ Z.abs (q.2 - p.2) <= radius /\
      (moore = true \/ Z.abs (q.1 - p.1) + Z.abs (q.2 - p.2) <= radius) /\
      (ic = true \/ q ≠ p).
Proof.
  intros Hwf Hsound Ht.
  destruct (get_neighborhood_elem s p moore ic radius Hwf Hsound)
    as (l & Hl & _ & _ & Helem).
  exists l. split; [done|]. intros q. rewrite Helem, elem_of_neighborhood_list.
  rewrite Ht. destruct p as [x y], q as [x' y']. simpl. split.
  - intros (dx & dy & Ho & Hb & [= -> ->]).
    apply elem_of_offsets in Ho as (Hdx & Hdy & Hk).
    apply keep_offset_spec in Hk as [Hc Hm].
    replace (x + dx - x) with dx by lia. replace (y + dy - y) with dy by lia.
    split_and!; [done|lia|lia|done|].
    destruct Hc as [?|Hnz]; [by left|right]. intros [= ? ?]. lia.
  - intros (Hb & Hdx & Hdy & Hm & Hc). exists (x' - x), (y' - y).
    split; [|split; [|f_equal; lia]].
    + apply elem_of_offsets. split; [lia|]. split; [lia|].
      apply keep_offset_spec. split; [|done].
      destruct Hc as [?|Hne]; [by left|right].
      destruct (decide (x' - x = 0)); [|by left]. right. intros Hy.
      apply Hne. f_equal; lia.
    + by replace (x + (x' - x)) with x' by lia;
         replace (y + (y' - y)) with y' by lia.
Qed.

Lemma get_neighborhood_bounded_spec_witness :
  exists l,
    (get_neighborhood (0, 2) false false 2 (init MultiGrid 3 3 false)).1 = Ok l /\
    forall q,
      q ∈ l <->
      in_bounds (init MultiGrid 3 3 false) q /\
      Z.abs (q.1 - (0, 2).1) <= 2 /\ Z.abs (q.2 - (0, 2).2) <= 2 /\
      (false = true \/ Z.abs (q.1 - (0, 2).1) + Z.abs (q.2 - (0, 2).2) <= 2) /\
      (false = true \/ q ≠ (0, 2)).
Proof.
  apply (get_neighborhood_bounded_spec (init MultiGrid 3 3 false) (0, 2) false false 2).
  - apply wf_init; lia.
  - apply cache_sound_init.
  - reflexivity.
Defined.

Lemma mod_eq_congruent a b w :
  0 < w -> 0 <= a < w -> (a = b mod w <-> (a - b) mod w = 0).
Proof.
  intros Hw Ha. split.
  - intros ->. rewrite Zminus_mod, Z.mod_mod, Z.sub_diag by lia.
    by apply Z.mod_0_l; lia.
  - intros Hz. apply Z.mod_divide in Hz as [k Hk]; [|lia].
    replace b with (a + (- k) * w) by lia.
    rewrite Z.mod_add by lia. by rewrite Z.mod_small.
Qed.

(** X19: on a torus the neighborhood of [p] holds exactly the canonical
    coordinates congruent, modulo the dimensions, to [p] shifted by an
    offset within [radius] in both axes, within Manhattan distance
    [radius] unless [moore] is set, and other than (0,0) unless
    [include_center] is set. *)
Theorem get_neighborhood_torus_spec s p moore ic radius :
  wf s -> cache_sound s -> torus s = true ->
  exists l,
    (get_neighborhood p moore ic radius s).1 = Ok l /\
    forall q,
      q ∈ l <->
      in_bounds s q /\
      exists dx dy,
        Z.abs dx <= radius /\ Z.abs dy <= radius /\
        (moore = true \/ Z.abs dx + Z.abs dy <= radius) /\
        (ic = true \/ dx ≠ 0 \/ dy ≠ 0) /\
        (q.1 - (p.1 + dx)) mod width s = 0 /\
        (q.2 - (p.2 + dy)) mod height s = 0.
Proof.
  intros Hwf Hsound Ht.
  pose proof (wf_width s Hwf) as Hw. pose proof (wf_height s Hwf) as Hh.
  destruct (get_neighborhood_elem s p moore ic radius Hwf Hsound)
    as (l & Hl & _ & _ & Helem).
  exists l. split; [done|]. intros q. rewrite Helem. split.
  - intros Hq. split; [by eapply neighborhood_list_in_bounds|].
    pose proof (neighborhood_list_in_bounds s p moore ic radius q Hwf Hq) as [Hx Hy].
    apply elem_of_neighborhood_list in Hq as (dx & dy & Ho & Hq).
    rewrite Ht in Hq. apply elem_of_offsets in Ho as (Hdx & Hdy & Hk).
    apply keep_offset_spec in Hk as [Hc Hm]. exists dx, dy.
    split_and!; [lia|lia|done|done|..]; subst q; simpl in *.
    + by apply mod_eq_congruent.
    + by apply mod_eq_congruent.
  - intros ([Hx Hy] & dx & dy & Hdx & Hdy & Hm & Hc & Hqx & Hqy).
    apply elem_of_neighborhood_list. exists dx, dy. rewrite Ht. split.
    + apply elem_of_offsets. split; [lia|]. split; [lia|].
      by apply keep_offset_spec.
    + destruct q as [x y]. simpl in *. f_equal; by apply mod_eq_congruent.
Qed.

Lemma get_neighborhood_torus_spec_witness :
  exists l,
    (get_neighborhood (0, 0) true false 1 (init MultiGrid 2 3 true)).1 = Ok l /\
    forall q,
      q ∈ l <->
      in_bounds (init MultiGrid 2 3 true) q /\
      exists dx dy,
        Z.abs dx <= 1 /\ Z.abs dy <= 1 /\
        (true = true \/ Z.abs dx + Z.abs dy <= 1) /\
        (false = true \/ dx ≠ 0 \/ dy ≠ 0) /\
        (q.1 - ((0, 0).1 + dx)) mod width (init MultiGrid 2 3 true) = 0 /\
        (q.2 - ((0, 0).2 + dy)) mod height (init MultiGrid 2 3 true) = 0.
Proof.
  apply (get_neighborhood_torus_spec (init MultiGrid 2 3 true) (0, 0) true false 1).
  - apply wf_init; lia.
  - apply cache_sound_init.
  - reflexivity.
Defined.

(** X20: neighborhoods are symmetric: for canonical [p] and [q], on a
    torus or a bounded grid, [q] is in the neighborhood of [p] exactly
    when [p] is in the neighborhood of [q] for the same shape, center flag
    and radius. *)
Theorem get_neighborhood_symmetric s p q moore ic radius :
  wf s -> cache_sound s -> in_bounds s p -> in_bounds s q ->
  exists lp lq,
    (get_neighborhood p moore ic radius s).1 = Ok lp /\
    (get_neighborhood q moore ic radius s).1 = Ok lq /\
    (q ∈ lp <-> p ∈ lq).
Proof.
  intros Hwf Hsound Hp Hq.
  pose proof (wf_width s Hwf) as Hw. pose proof (wf_height s Hwf) as Hh.
  destruct (get_neighborhood_elem s p moore ic radius Hwf Hsound)
    as (lp & Hlp & _ & _ & Help).
  destruct (get_neighborhood_elem s q moore ic radius Hwf Hsound)
    as (lq & Hlq & _ & _ & Helq).
  exists lp, lq. split; [done|]. split; [done|]. rewrite Help, Helq.
  assert (forall a b, in_bounds s a -> in_bounds s b ->
            b ∈ neighborhood_list s a moore ic radius ->
            a ∈ neighborhood_list s b moore ic radius) as Hone.
  { intros [ax ay] [bx by'] [Hax Hay] [Hbx Hby] Hin. simpl in *.
    apply elem_of_neighborhood_list in Hin as (dx & dy & Ho & Hb).
    apply elem_of_offsets in Ho as (Hdx & Hdy & Hk).
    apply keep_offset_spec in Hk as [Hc Hm].
    apply elem_of_neighborhood_list. exists (- dx), (- dy). split.
    { apply elem_of_offsets. split; [lia|]. split; [lia|].
      apply keep_offset_spec. split;
        [|destruct Hm as [?|?]; [by left|right; lia]].
      destruct Hc as [?|[?|?]]; [by left|right; left; lia|right; right; lia]. }
    simpl in *. destruct (torus s).
    - injection Hb as -> ->. f_equal.
      + apply mod_eq_congruent; [done..|].
        replace (ax - ((ax + dx) mod width s + - dx))
          with ((ax + dx) - (ax + dx) mod width s) by lia.
        rewrite Zminus_mod, Z.mod_mod, Z.sub_diag by lia.
        by apply Z.mod_0_l; lia.
      + apply mod_eq_congruent; [done..|].
        replace (ay - ((ay + dy) mod height s + - dy))
          with ((ay + dy) - (ay + dy) mod height s) by lia.
        rewrite Zminus_mod, Z.mod_mod, Z.sub_diag by lia.
        by apply Z.mod_0_l; lia.
    - destruct Hb as [_ [= -> ->]]. split.
      + unfold in_bounds. simpl. lia.
      + f_equal; lia. }
  split; by apply Hone.
Qed.

Lemma get_neighborhood_symmetric_witness :
  exists lp lq,
    (get_neighborhood (0, 0) false false 2 (init MultiGrid 3 4 true)).1 = Ok lp /\
    (get_neighborhood (2, 3) false false 2 (init MultiGrid 3 4 true)).1 = Ok lq /\
    ((2, 3) ∈ lp <-> (0, 0) ∈ lq).
Proof.
  apply (get_neighborhood_symmetric (init MultiGrid 3 4 true) (0, 0) (2, 3) false false 2).
  - apply wf_init; lia.
  - apply cache_sound_init.
  - by vm_compute.
  - by vm_compute.
Defined.

(** X21: for the same position, center flag and radius, every coordinate
    of the Von Neumann neighborhood is in the Moore neighborhood. *)
Theorem von_neumann_subset_moore s p ic radius :
  wf s -> cache_sound s ->
  exists lv lm,
    (get_neighborhood p false ic radius s).1 = Ok lv /\
    (get_neighborhood p true ic radius s).1 = Ok lm /\
    lv ⊆ lm.
Proof.
  intros Hwf Hsound.
  destruct (get_neighborhood_elem s p false ic radius Hwf Hsound)
    as (lv & Hlv & _ & _ & Helv).
  destruct (get_neighborhood_elem s p true ic radius Hwf Hsound)
    as (lm & Hlm & _ & _ & Helm).
  exists lv, lm. split; [done|]. split; [done|]. intros q.
  rewrite Helv, Helm, !elem_of_neighborhood_list.
  intros (dx & dy & Ho & Hq). exists dx, dy. split; [|done].
  apply elem_of_offsets in Ho as (Hdx & Hdy & Hk).
  apply elem_of_offsets. split; [done|]. split; [done|].
  apply keep_offset_spec in Hk as [Hc _]. apply keep_offset_spec. auto.
Qed.

Lemma von_neumann_subset_moore_witness :
  exists lv lm,
    (get_neighborhood (1, 1) false true 2 (init MultiGrid 4 4 false)).1 = Ok lv /\
    (get_neighborhood (1, 1) true true 2 (init MultiGrid 4 4 false)).1 = Ok lm /\
    lv ⊆ lm.
Proof.
  apply (von_neumann_subset_moore (init MultiGrid 4 4 false) (1, 1) true 2).
  - apply wf_init; lia.
  - apply cache_sound_init.
Defined.

(** X22: on a torus whose width or height does not exceed the radius, a
    canonical position is in its own neighborhood even when
    [include_center] is false: an offset of a whole width (or height)
    wraps back onto it. *)
Theorem center_in_own_neighborhood_on_small_torus s p moore radius :
  wf s -> cache_sound s -> torus s = true -> in_bounds s p ->
  width s <= radius \/ height s <= radius ->
  exists l, (get_neighborhood p moore false radius s).1 = Ok l /\ p ∈ l.
Proof.
  intros Hwf Hsound Ht [Hx Hy] Hsmall.
  pose proof (wf_width s Hwf) as Hw. pose proof (wf_height s Hwf) as Hh.
  destruct (get_neighborhood_elem s p moore false radius Hwf Hsound)
    as (l & Hl & _ & _ & Helem).
  exists l. split; [done|]. apply Helem, elem_of_neighborhood_list.
  rewrite Ht. destruct p as [x y]. simpl in *.
  destruct Hsmall as [Hws|Hhs].
  - exists (width s), 0. split.
    + apply elem_of_offsets. split; [lia|]. split; [lia|].
      apply keep_offset_spec. split; [right; left; lia|right; lia].
    + f_equal.
      * rewrite <- (Z.mul_1_l (width s)) at 1. rewrite Z.mod_add by lia.
        by rewrite Z.mod_small.
      * rewrite Z.add_0_r. by rewrite Z.mod_small.
  - exists 0, (height s). split.
    + apply elem_of_offsets. split; [lia|]. split; [lia|].
      apply keep_offset_spec. split; [right; right; lia|right; lia].
    + f_equal.
      * rewrite Z.add_0_r. by rewrite Z.mod_small.
      * rewrite <- (Z.mul_1_l (height s)) at 1. rewrite Z.mod_add by lia.
        by rewrite Z.mod_small.
Qed.

Lemma center_in_own_neighborhood_on_small_torus_witness :
  exists l,
    (get_neighborhood (1, 0) false false 2 (init MultiGrid 2 5 true)).1 = Ok l /\
    (1, 0) ∈ l.
Proof.
  apply (center_in_own_neighborhood_on_small_torus
           (init MultiGrid 2 5 true) (1, 0) false 2).
  - apply wf_init; lia.
  - apply cache_sound_init.
  - reflexivity.
  - by vm_compute.
  - left. simpl. lia.
Defined.

(** X23: with a radius that is zero or negative, [get_neighborhood]
    without the center returns the empty list; with the center and radius
    zero it returns just the position, when that is canonical. *)
Theorem get_neighborhood_small_radius s p moore radius :
  wf s -> cache_sound s -> radius <= 0 ->
  (get_neighborhood p moore false radius s).1 = Ok [] /\
  (radius = 0 -> in_bounds s p ->
   (get_neighborhood p moore true radius s).1 = Ok [p]).
Proof.
  intros Hwf Hsound Hr.
  pose proof (wf_width s Hwf) as Hw. pose proof (wf_height s Hwf) as Hh.
  split.
  - destruct (get_neighborhood_elem s p moore false radius Hwf Hsound)
      as (l & Hl & _ & _ & Helem).
    rewrite Hl. f_equal. destruct l as [|q l]; [done|]. exfalso.
    assert (q ∈ q :: l) as Hq by set_solver.
    apply Helem, elem_of_neighborhood_list in Hq as (dx & dy & Ho & _).
    apply elem_of_offsets in Ho as (Hdx & Hdy & Hk).
    apply keep_offset_spec in Hk as [[?|?] _]; [done|lia].
  - intros -> Hp.
    destruct (get_neighborhood_elem s p moore true 0 Hwf Hsound)
      as (l & Hl & Hsorted & Hnd & Helem).
    rewrite Hl. f_equal.
    assert (forall q, q ∈ l <-> q = p) as Honly.
    { intros q. rewrite Helem, elem_of_neighborhood_list. split.
      - intros (dx & dy & Ho & Hq).
        apply elem_of_offsets in Ho as (Hdx & Hdy & _).
        assert (dx = 0) as -> by lia. assert (dy = 0) as -> by lia.
        destruct p as [x y], Hp as [Hx Hy]. simpl in *.
        rewrite !Z.add_0_r in Hq. destruct (torus s); [|by destruct Hq].
        by rewrite !Z.mod_small in Hq by done.
      - intros ->. exists 0, 0. split.
        + apply elem_of_offsets. split; [lia|]. split; [lia|].
          apply keep_offset_spec. split; [by left|right; simpl; lia].
        + destruct p as [x y], Hp as [Hx Hy]. simpl in *.
          rewrite !Z.add_0_r. destruct (torus s); [|done].
          by rewrite !Z.mod_small by done. }
    apply (Sorted_unique coord_le); [done|repeat constructor|].
    apply NoDup_Permutation; [done|apply NoDup_singleton|].
    intros q. rewrite Honly. by rewrite list_elem_of_singleton.
Qed.

Lemma get_neighborhood_small_radius_witness :
  (get_neighborhood (1, 1) true false 0 (init MultiGrid 3 3 true)).1 = Ok [] /\
  (0 = 0 -> in_bounds (init MultiGrid 3 3 true) (1, 1) ->
   (get_neighborhood (1, 1) true true 0 (init MultiGrid 3 3 true)).1 = Ok [(1, 1)]).
Proof.
  apply (get_neighborhood_small_radius (init MultiGrid 3 3 true) (1, 1) true 0).
  - apply wf_init; lia.
  - apply cache_sound_init.
  - lia.
Defined.

Lemma neighborhood_list_length s p moore ic radius :
  (length (neighborhood_list s p moore ic radius)
   <= length (offsets moore ic radius))%nat.
Proof.
  unfold neighborhood_list.
  induction (offsets moore ic radius) as [|o l IH]; csimpl; [done|].
  rewrite length_app. unfold candidate at 1.
  destruct (torus s); [simpl; lia|]. case_bool_decide; simpl; lia.
Qed.

(** X24: the bounds the docstring of [get_neighborhood] gives for radius
    1 hold: at most 9 coordinates for Moore and 5 for Von Neumann with the
    center, 8 and 4 without. *)
Theorem get_neighborhood_radius_1_bound s p moore ic :
  wf s -> cache_sound s ->
  exists l,
    (get_neighborhood p moore ic 1 s).1 = Ok l /\
    (length l <= (if moore then 9 else 5) - (if ic then 0 else 1))%nat.
Proof.
  intros Hwf Hsound.
  destruct (get_neighborhood_elem s p moore ic 1 Hwf Hsound)
    as (l & Hl & _ & Hnd & Helem).
  exists l. split; [done|].
  assert (length l <= length (offsets moore ic 1))%nat as Hle.
  { etrans; [|apply (neighborhood_list_length s p)].
    apply submseteq_length, NoDup_submseteq; [done|].
    intros q. by rewrite Helem. }
  by destruct moore, ic.
Qed.

Lemma get_neighborhood_radius_1_bound_witness :
  exists l,
    (get_neighborhood (0, 0) false true 1 (init MultiGrid 2 2 true)).1 = Ok l /\
    (length l <= (if false then 9 else 5) - (if true then 0 else 1))%nat.
Proof.
  apply (get_neighborhood_radius_1_bound (init MultiGrid 2 2 true) (0, 0) false true).
  - apply wf_init; lia.
  - apply cache_sound_init.
Defined.

(** ** Reading cells *)

Lemma contents_of_Forall2 {V} (item : Coordinate -> result V)
    (R : Coordinate -> V -> Prop) s (l : list Coordinate) :
  (forall p, p ∈ l -> p ∉ _empties s -> exists v, item p = Ok v /\ R p v) ->
  exists vs,
    contents_of item (is_cell_empty s) l = Ok vs /\
    Forall2 R (filter (fun p => p ∉ _empties s) l) vs.
Proof.
  induction l as [|p l IH]; intros Hitem; simpl.
  - exists []. split; [done|]. constructor.
  - destruct IH as (vs & Hvs & Hall); [intros q Hq; apply Hitem; set_solver|].
    rewrite filter_cons. unfold is_cell_empty at 1. case_bool_decide as Hin; simpl.
    + rewrite decide_False by tauto. by exists vs.
    + rewrite decide_True by done.
      destruct (Hitem p) as (v & Hv & HR); [set_solver|done|].
      rewrite Hv. simpl. rewrite Hvs. simpl. exists (v :: vs).
      split; [done|]. by constructor.
Qed.

Lemma grid_cell_nonempty_outside_empties s p :
  wf s -> in_bounds s p -> p ∉ _empties s ->
  exists a c, grid_cell s p = Ok (a :: c).
Proof.
  intros Hwf Hp Hout.
  destruct (grid_cell_cell_at s p (wf_shape s Hwf) Hp) as (c & _ & Hc).
  destruct c as [|a c]; [|eauto]. exfalso. apply Hout.
  by apply (wf_empties s Hwf).
Qed.

(** X25: in a well-formed state [get_contents] of a [MultiGrid] object,
    given canonical positions, never raises and returns, in the order
    given, the contents of the positions whose cell is not empty; no
    returned list is empty. *)
Theorem MultiGrid_get_contents_canonical s (l : list Coordinate) :
  wf s -> Forall (in_bounds s) l ->
  exists cs,
    MultiGrid_get_contents s (CellList l) = Ok cs /\
    Forall2 (fun p c => grid_cell s p = Ok c /\ c ≠ [])
      (filter (fun p => p ∉ _empties s) l) cs.
Proof.
  intros Hwf Hl. apply contents_of_Forall2. intros p Hp Hout.
  rewrite Forall_forall in Hl.
  destruct (grid_cell_nonempty_outside_empties s p Hwf (Hl p Hp) Hout)
    as (a & c & Hc).
  exists (a :: c). by rewrite Hc.
Qed.

Lemma MultiGrid_get_contents_canonical_witness :
  let s := session [Mutate (PlaceAgent 0%nat (1, 1)); Mutate (PlaceAgent 1%nat (1, 1))]
             (init MultiGrid 2 2 false) in
  exists cs,
    MultiGrid_get_contents s (CellList [(0, 0); (1, 1); (0, 1)]) = Ok cs /\
    Forall2 (fun p c => grid_cell s p = Ok c /\ c ≠ [])
      (filter (fun p => p ∉ _empties s) [(0, 0); (1, 1); (0, 1)]) cs.
Proof.
  intros s. apply (MultiGrid_get_contents_canonical s [(0, 0); (1, 1); (0, 1)]).
  - apply wf_session_init; [lia|lia|]. repeat constructor; simpl; lia.
  - repeat constructor; simpl; lia.
Defined.

Lemma getitem_beyond {A} (l : list A) (i : Z) :
  Z.of_nat (length l) <= i -> getitem l i = Err IndexError.
Proof.
  intros Hi. unfold getitem, py_index.
  rewrite bool_decide_eq_false_2 by lia. by rewrite bool_decide_eq_false_2 by lia.
Qed.

Lemma getitem_Ok_elem {A} (l : list A) (i : Z) a : getitem l i = Ok a -> a ∈ l.
Proof.
  unfold getitem. destruct (py_index l i) as [k|]; simpl; [|done].
  destruct (l !! k) eqn:Hk; [|done]. intros [= <-].
  by eapply list_elem_of_lookup_2.
Qed.

Lemma getitem_Err {A} (l : list A) (i : Z) e :
  getitem l i = Err e -> e = IndexError.
Proof.
  unfold getitem. destruct (py_index l i) as [k|e'] eqn:Hk; simpl.
  - destruct (l !! k); [done|]. by intros [= <-].
  - intros [= <-]. unfold py_index in Hk.
    repeat case_bool_decide; try done. by injection Hk as <-.
Qed.

(** X26: a position at or beyond the width or the height is not skipped
    by [get_contents]: [is_cell_empty] answers false for it and the cell
    read raises [IndexError]. *)
Theorem MultiGrid_get_contents_beyond s p :
  wf s -> width s <= p.1 \/ height s <= p.2 ->
  is_cell_empty s p = false /\
  MultiGrid_get_contents s (OnePos p) = Err IndexError.
Proof.
  intros Hwf Hbeyond.
  assert (p ∉ _empties s) as Hout.
  { intros Hin. apply (wf_empties s Hwf) in Hin as [[? ?] _]. lia. }
  split; [by apply bool_decide_eq_false_2|].
  unfold MultiGrid_get_contents. simpl. unfold is_cell_empty.
  rewrite bool_decide_eq_false_2 by done. simpl.
  destruct (wf_shape s Hwf) as [Hlen Hcols].
  pose proof (wf_width s Hwf). pose proof (wf_height s Hwf).
  assert (grid_cell s p = Err IndexError) as ->; [|done].
  unfold grid_cell. destruct (getitem (_grid s) p.1) as [col|e] eqn:Hcol; simpl.
  - destruct Hbeyond as [Hx|Hy].
    + rewrite getitem_beyond in Hcol by lia. done.
    + apply getitem_beyond. apply getitem_Ok_elem in Hcol.
      rewrite Forall_forall in Hcols. rewrite (Hcols col Hcol). lia.
  - f_equal. by eapply getitem_Err.
Qed.

Lemma MultiGrid_get_contents_beyond_witness :
  is_cell_empty (init MultiGrid 2 2 false) (-1, 2) = false /\
  MultiGrid_get_contents (init MultiGrid 2 2 false) (OnePos (-1, 2)) = Err IndexError.
Proof.
  apply (MultiGrid_get_contents_beyond (init MultiGrid 2 2 false) (-1, 2)).
  - apply wf_init; lia.
  - right. simpl. lia.
Defined.

(** X27: in a well-formed state [SingleGrid.__getitem__] at a canonical
    position never raises, and it returns [None] exactly when
    [is_cell_empty] answers true for the position. *)
Theorem SingleGrid_getitem_None_iff_empty s p :
  wf s -> in_bounds s p ->
  exists v, SingleGrid_getitem s p = Ok v /\
            (v = None <-> is_cell_empty s p = true).
Proof.
  intros Hwf Hp. unfold SingleGrid_getitem, is_cell_empty.
  destruct (grid_cell_cell_at s p (wf_shape s Hwf) Hp) as (c & _ & Hc).
  rewrite Hc. simpl. eexists. split; [done|].
  rewrite bool_decide_eq_true, (wf_empties s Hwf p), Hc.
  destruct c; split; try done; by intros [_ [=]].
Qed.

Lemma SingleGrid_getitem_None_iff_empty_witness :
  let s := session [Mutate (PlaceAgent 4%nat (0, 1))] (init SingleGrid 2 2 false) in
  exists v, SingleGrid_getitem s (0, 1) = Ok v /\
            (v = None <-> is_cell_empty s (0, 1) = true).
Proof.
  intros s. apply (SingleGrid_getitem_None_iff_empty s (0, 1)).
  - apply wf_session_init; [lia|lia|]. repeat constructor; simpl; lia.
  - by vm_compute.
Defined.

(** X28: in a well-formed state [get_contents] of a [SingleGrid] or
    [Grid] object, given canonical positions, never raises and returns, in
    the order given, the first agent of each position whose cell is not
    empty; it never returns [None]. *)
Theorem SingleGrid_get_contents_canonical s (l : list Coordinate) :
  wf s -> Forall (in_bounds s) l ->
  exists vs,
    SingleGrid_get_contents s (CellList l) = Ok vs /\
    Forall2 (fun p v => exists a c, grid_cell s p = Ok (a :: c) /\ v = Some a)
      (filter (fun p => p ∉ _empties s) l) vs.
Proof.
  intros Hwf Hl. apply contents_of_Forall2. intros p Hp Hout.
  rewrite Forall_forall in Hl.
  destruct (grid_cell_nonempty_outside_empties s p Hwf (Hl p Hp) Hout)
    as (a & c & Hc).
  exists (Some a). unfold SingleGrid_getitem. rewrite Hc. simpl. eauto.
Qed.

Lemma SingleGrid_get_contents_canonical_witness :
  let s := session [Mutate (PlaceAgent 0%nat (1, 1))] (init Grid 2 2 false) in
  exists vs,
    SingleGrid_get_contents s (CellList [(1, 1); (0, 0)]) = Ok vs /\
    Forall2 (fun p v => exists a c, grid_cell s p = Ok (a :: c) /\ v = Some a)
      (filter (fun p => p ∉ _empties s) [(1, 1); (0, 0)]) vs.
Proof.
  intros s. apply (SingleGrid_get_contents_canonical s [(1, 1); (0, 0)]).
  - apply wf_session_init; [lia|lia|]. repeat constructor; simpl; lia.
  - repeat constructor; simpl; lia.
Defined.

(** ** Neighbors *)

Lemma contents_of_agents s (l : list Coordinate) :
  wf s -> Forall (in_bounds s) l ->
  exists cs,
    contents_of (grid_cell s) (is_cell_empty s) l = Ok cs /\
    forall a, a ∈ concat cs <->
              exists q c, q ∈ l /\ grid_cell s q = Ok c /\ a ∈ c.
Proof.
  intros Hwf. induction l as [|p l IH]; intros Hl; simpl.
  - exists []. split; [done|]. intros a. split; [by intros ?%elem_of_nil|].
    by intros (q & c & ?%elem_of_nil & _).
  - apply Forall_cons in Hl as [Hp Hl]. destruct (IH Hl) as (cs & Hcs & Hagents).
    destruct (grid_cell_cell_at s p (wf_shape s Hwf) Hp) as (c & _ & Hc).
    unfold is_cell_empty at 1. case_bool_decide as Hin; simpl.
    + exists cs. split; [done|]. intros a. rewrite Hagents. split.
      * intros (q & c0 & Hq & Hc0 & Ha). exists q, c0. set_solver.
      * intros (q & c0 & Hq & Hc0 & Ha).
        apply elem_of_cons in Hq as [->|Hq]; [|by exists q, c0].
        apply (wf_empties s Hwf) in Hin as [_ Hnil]. rewrite Hnil in Hc0.
        injection Hc0 as <-. by apply elem_of_nil in Ha.
    + rewrite Hc. simpl. rewrite Hcs. simpl. exists (c :: cs).
      split; [done|]. intros a. simpl. rewrite elem_of_app, Hagents. split.
      * intros [Ha|(q & c0 & Hq & Hc0 & Ha)];
          [exists p, c|exists q, c0]; set_solver.
      * intros (q & c0 & Hq & Hc0 & Ha).
        apply elem_of_cons in Hq as [->|Hq]; [|right; by exists q, c0].
        left. rewrite Hc in Hc0. by injection Hc0 as <-.
Qed.

Lemma get_neighborhood_cells p moore ic radius s r s1 :
  get_neighborhood p moore ic radius s = (r, s1) ->
  _grid s1 = _grid s /\ _empties s1 = _empties s /\ agent_pos s1 = agent_pos s.
Proof.
  unfold get_neighborhood.
  destruct (_neighborhood_cache s !! _); [by intros [= _ <-]|].
  destruct (neighborhood_coordinates _ _ _ _ _); by intros [= _ <-].
Qed.

(** X29: in a well-formed state with a sound cache, [get_neighbors] of a
    [MultiGrid] object never raises, and the agents it returns are exactly
    the agents held by the cells of the neighborhood that
    [get_neighborhood] returns for the same arguments. *)
Theorem MultiGrid_get_neighbors_spec s p moore ic radius :
  wf s -> cache_sound s ->
  exists l agents,
    (get_neighborhood p moore ic radius s).1 = Ok l /\
    (MultiGrid_get_neighbors p moore ic radius s).1 = Ok agents /\
    forall a, a ∈ agents <->
              exists q c, q ∈ l /\ grid_cell s q = Ok c /\ a ∈ c.
Proof.
  intros Hwf Hsound.
  destruct (get_neighborhood_elem s p moore ic radius Hwf Hsound)
    as (l & Hl & _ & _ & Helem).
  destruct (get_neighborhood p moore ic radius s) as [r s1] eqn:Hrun.
  simpl in Hl. subst r.
  destruct (get_neighborhood_cells p moore ic radius s _ s1 Hrun)
    as (Hgrid & Hemp & _).
  destruct (contents_of_agents s l Hwf) as (cs & Hcs & Hagents).
  { apply Forall_forall. intros q Hq.
    apply (neighborhood_list_in_bounds s p moore ic radius); [done|].
    by apply Helem. }
  exists l, (concat cs). split; [done|]. split; [|done].
  unfold MultiGrid_get_neighbors, bind, get, lift, ret. rewrite Hrun.
  unfold MultiGrid_get_contents. simpl.
  replace (contents_of (grid_cell s1) (is_cell_empty s1) l)
    with (contents_of (grid_cell s) (is_cell_empty s) l); [by rewrite Hcs|].
  unfold grid_cell, is_cell_empty. by rewrite Hgrid, Hemp.
Qed.

Lemma MultiGrid_get_neighbors_spec_witness :
  let s := session [Mutate (PlaceAgent 0%nat (0, 1)); Mutate (PlaceAgent 1%nat (2, 2))]
             (init MultiGrid 3 3 true) in
  exists l agents,
    (get_neighborhood (0, 0) true false 1 s).1 = Ok l /\
    (MultiGrid_get_neighbors (0, 0) true false 1 s).1 = Ok agents /\
    forall a, a ∈ agents <->
              exists q c, q ∈ l /\ grid_cell s q = Ok c /\ a ∈ c.
Proof.
  intros s. apply (MultiGrid_get_neighbors_spec s (0, 0) true false 1).
  - apply wf_session_init; [lia|lia|]. repeat constructor; simpl; lia.
  - apply cache_sound_session.
Defined.

(** ** Iteration *)




